(** * brunhild: the JavaScript externs of the virtual DOM bridge

    A shallow embedding of [src/externs.js], the Emscripten library that
    the Rust core of brunhild calls to patch the browser DOM and to
    delegate events.

    The host objects the externs talk to are modelled next to them:
    - the document is a forest of nodes and an element reference is the
      path of child indices that leads to it;
    - the Emscripten heap is a byte map with a bump allocator;
    - the listener list of the document and the closures allocated by
      [register_listener] carry the identity of each handler function.

    JavaScript strings are sequences of UTF-16 code units.  The arguments
    of the externs are the strings that [Pointer_stringify] decodes from
    the C pointers they receive. *)

From Stdlib Require Import ZArith Ascii String List Sorted.
From stdpp Require Import base option list gmap.

Local Open Scope Z_scope.
Set Warnings "-register-all".

(** ** JavaScript values shared by every extern *)

(** A JavaScript string: its UTF-16 code units. *)
Abbreviation jsstring := (list Z).

(** An ASCII literal as a JavaScript string. *)
Definition js (s : string) : jsstring :=
  (λ a, Z.of_N (N_of_ascii a)) <$> list_ascii_of_string s.

(** The exceptions the host can raise in the modelled code. *)
Inductive exn : Type :=
| TypeError
| SyntaxError
| HierarchyRequestError
| NoModificationAllowedError
| InvalidCharacterError.

(** The outcome of a call: it returns normally or it throws. *)
Inductive result (A : Type) : Type :=
| Returns (a : A)
| Throws (e : exn).
Arguments Returns {A} a.
Arguments Throws {A} e.



(** ASCII lower-casing, as [setAttribute] applies it to a name given
    for an HTML element. *)
Definition ascii_lower_unit (c : Z) : Z :=
  if (0x41 <=? c) && (c <=? 0x5A) then c + 0x20 else c.

Definition ascii_lowercase (s : jsstring) : jsstring := ascii_lower_unit <$> s.

(** ** The document *)

(** The namespaces of the elements the HTML parser creates.  Elements of
    any other namespace, which only a script outside brunhild could
    create, are left out. *)
Inductive namespace : Type :=
| HTML
| MathML
| SVG.

#[global] Instance namespace_eq_dec : EqDecision namespace.
Proof. solve_decision. Defined.

(** What names an element: [el.namespaceURI] and [el.localName]. *)
Record element_name : Type := ElementName {
  namespaceURI : namespace;
  localName : jsstring
}.

(** The name of the HTML element with an ASCII local name. *)
Definition html_name (s : string) : element_name := ElementName HTML (js s).

(** A DOM node.  Document type nodes are left out: no extern can reach or
    create one.  An attribute is its qualified name and its value. *)
Inductive node : Type :=
| Element (name : element_name) (attributes : list (jsstring * jsstring))
          (childNodes : list node)
| Text (data : jsstring)
| Comment (data : jsstring).

(** The document is the list of children of the [Document] node. *)
Abbreviation document := (list node).

(** A node reference: the child indices from the [Document] node down to
    the node.  The empty path is the [Document] node itself. *)
Abbreviation path := (list nat).

Definition is_element (n : node) : bool :=
  match n with Element _ _ _ => true | _ => false end.

Definition is_comment (n : node) : bool :=
  match n with Comment _ => true | _ => false end.

(** [el.getAttribute(name)]: the value of the first attribute so named. *)
Fixpoint getAttribute (name : jsstring) (attrs : list (jsstring * jsstring))
  : option jsstring :=
  match attrs with
  | [] => None
  | (k, v) :: rest => if decide (k = name) then Some v else getAttribute name rest
  end.

(** An element of any namespace has the ID [id] when its [id] attribute
    holds that value; an empty attribute value gives the element no ID. *)
Definition has_id (id : jsstring) (attrs : list (jsstring * jsstring)) : bool :=
  bool_decide (id ≠ []) && bool_decide (getAttribute (js "id") attrs = Some id).

(** First hit of [f] over a child list, scanning from index [i]. *)
Definition first_hit {A} (f : A → option (list nat))
  : list A → nat → option (list nat) :=
  fix scan (ns : list A) (i : nat) : option (list nat) :=
    match ns with
    | [] => None
    | n :: ns' =>
        match f n with
        | Some p => Some (i :: p)
        | None => scan ns' (S i)
        end
    end.

(** Tree-order search below (and including) a node. *)
Fixpoint find_id (id : jsstring) (n : node) : option (list nat) :=
  match n with
  | Element _ attrs cs =>
      if has_id id attrs then Some [] else first_hit (find_id id) cs 0%nat
  | Text _ | Comment _ => None
  end.

(** [document.getElementById(id)]: the first element in tree order whose
    ID is [id], or [None] for JavaScript's [null]. *)
Definition getElementById (doc : document) (id : jsstring) : option path :=
  first_hit (find_id id) doc 0%nat.

(** The node a path leads to ([None] for the [Document] node and for a
    path that leads nowhere). *)
Fixpoint node_at (ns : list node) (p : path) : option node :=
  match p with
  | [] => None
  | i :: p' =>
      match p' with
      | [] => ns !! i
      | _ :: _ =>
          match ns !! i with
          | Some (Element _ _ cs) => node_at cs p'
          | _ => None
          end
      end
  end.

(** The child list of the node a path leads to. *)
Fixpoint childNodes_at (ns : list node) (p : path) : option (list node) :=
  match p with
  | [] => Some ns
  | i :: p' =>
      match ns !! i with
      | Some (Element _ _ cs) => childNodes_at cs p'
      | _ => None
      end
  end.

(** Replace the child list of the node at [p] by [f] of it. *)
Fixpoint update_children (f : list node → list node) (p : path)
    (ns : list node) : list node :=
  match p with
  | [] => f ns
  | i :: p' =>
      match ns !! i with
      | Some (Element t a cs) => <[i := Element t a (update_children f p' cs)]> ns
      | _ => ns
      end
  end.

(** Replace the attribute list of the element at [p] by [f] of it. *)
Fixpoint update_attributes
    (f : list (jsstring * jsstring) → list (jsstring * jsstring))
    (p : path) (ns : list node) : list node :=
  match p with
  | [] => ns
  | i :: p' =>
      match ns !! i with
      | Some (Element t a cs) =>
          match p' with
          | [] => <[i := Element t (f a) cs]> ns
          | _ :: _ => <[i := Element t a (update_attributes f p' cs)]> ns
          end
      | _ => ns
      end
  end.

(** Induction over nodes with the hypothesis for every child. *)
Section node_induction.
Variable P : node → Prop.
Hypothesis on_element : ∀ t a cs, Forall P cs → P (Element t a cs).
Hypothesis on_text : ∀ d, P (Text d).
Hypothesis on_comment : ∀ d, P (Comment d).

Fixpoint node_children_ind (n : node) : P n :=
  match n with
  | Element t a cs =>
      on_element t a cs
        ((fix all (l : list node) : Forall P l :=
            match l with
            | [] => List.Forall_nil P
            | c :: l' => List.Forall_cons P c l' (node_children_ind c) (all l')
            end) cs)
  | Text d => on_text d
  | Comment d => on_comment d
  end.
End node_induction.

(** The node reached from [n] by a relative path. *)
Fixpoint descend (n : node) (p : path) : option node :=
  match p with
  | [] => Some n
  | i :: p' =>
      match n with
      | Element _ _ cs => cs !! i ≫= λ c, descend c p'
      | _ => None
      end
  end.

(** Two paths are unrelated when neither node is in the subtree of the
    other. *)
Definition unrelated (r p : path) : Prop :=
  ¬ r `prefix_of` p ∧ ¬ p `prefix_of` r.

(** A node without its children: what the node itself is. *)
Definition shallow (n : node) : node :=
  match n with
  | Element t a _ => Element t a []
  | Text _ | Comment _ => n
  end.

(** [doc'] is [doc] with the node [n] put in as child number [k] of the
    node at [parent]: the child list of the parent gains exactly [n] at
    that place, the parent and its ancestors are otherwise the nodes they
    were, and every node outside the subtree of the parent is what it
    was. *)
Definition inserted_at (doc doc' : document) (parent : path) (k : nat)
    (n : node) : Prop :=
  ∃ cs, childNodes_at doc parent = Some cs ∧ (k ≤ length cs)%nat ∧
        childNodes_at doc' parent = Some (take k cs ++ n :: drop k cs) ∧
        (∀ r, r `prefix_of` parent →
              shallow <$> node_at doc' r = shallow <$> node_at doc r) ∧
        (∀ r, unrelated r parent → node_at doc' r = node_at doc r).

(** An element of the document carries the ID. *)
Definition live_element (doc : document) (id : jsstring) : Prop :=
  ∃ p t a cs, node_at doc p = Some (Element t a cs) ∧ has_id id a = true.

(** [el.parentNode] and the index of [el] among its siblings. *)
Definition parentNode (el : path) : path := removelast el.
Definition sibling_index (el : path) : nat := List.last el 0%nat.

(** [el.firstChild] as the reference child of an insertion: index 0 when
    there is a child, [None] (JavaScript's [null]) otherwise. *)
Definition firstChild_ref (cs : list node) : option nat :=
  match cs with [] => None | _ :: _ => Some 0%nat end.

(** [el.nextSibling] as the reference child of an insertion. *)
Definition nextSibling_ref (siblings : list node) (i : nat) : option nat :=
  if decide (S i < length siblings)%nat then Some (S i) else None.

(** Where [insertBefore] puts the node: before the reference child, or at
    the end when the reference is [null]. *)
Definition insert_at (ref : option nat) (n : node) (cs : list node) : list node :=
  match ref with
  | None => cs ++ [n]
  | Some k => take k cs ++ n :: drop k cs
  end.

(** The part of "ensure pre-insertion validity" that can fail for a node
    taken from a freshly parsed container: the [Document] node accepts
    comments, never text, and an element only while it has no element
    child. *)
Definition document_accepts (cs : list node) (n : node) : bool :=
  match n with
  | Comment _ => true
  | Text _ => false
  | Element _ _ _ => negb (existsb is_element cs)
  end.

(** [parent.insertBefore(new, ref)], where [new] is the value of
    [cont.firstChild]: [None] is [null], which is not a [Node]. *)
Definition insertBefore (parent : path) (new : option node) (ref : option nat)
    (doc : document) : result document :=
  match new with
  | None => Throws TypeError
  | Some n =>
      match parent with
      | [] =>
          if document_accepts doc n
          then Returns (insert_at ref n doc)
          else Throws HierarchyRequestError
      | _ :: _ => Returns (update_children (insert_at ref n) parent doc)
      end
  end.

(** [parent.appendChild(new)]. *)
Definition appendChild (parent : path) (new : option node) (doc : document)
  : result document :=
  insertBefore parent new None doc.

(** *** Serialising a fragment (the [innerHTML] getter) *)

Definition void_elements : list jsstring :=
  js <$> ["area"; "base"; "basefont"; "bgsound"; "br"; "col"; "embed";
          "frame"; "hr"; "img"; "input"; "keygen"; "link"; "meta"; "param";
          "source"; "track"; "wbr"]%string.

Definition raw_text_elements : list jsstring :=
  js <$> ["style"; "script"; "xmp"; "iframe"; "noembed"; "noframes";
          "plaintext"; "noscript"]%string.

(** Escaping a string; [attr] selects the attribute mode. *)
Definition escape_unit (attr : bool) (c : Z) : jsstring :=
  if c =? 0x26 then js "&amp;"
  else if c =? 0xA0 then js "&nbsp;"
  else if attr && (c =? 0x22) then js "&quot;"
  else if negb attr && (c =? 0x3C) then js "&lt;"
  else if negb attr && (c =? 0x3E) then js "&gt;"
  else [c].

Definition escape (attr : bool) (s : jsstring) : jsstring :=
  flat_map (escape_unit attr) s.

Definition serialize_attribute (kv : jsstring * jsstring) : jsstring :=
  js " " ++ kv.1 ++ js "=" ++ [0x22] ++ escape true kv.2 ++ [0x22].

(** Only HTML elements serialise as void or write their text out as it
    is: an SVG [style] element escapes its text like any other. *)
Definition serializes_as_void (t : element_name) : bool :=
  bool_decide (namespaceURI t = HTML)
  && bool_decide (localName t ∈ void_elements).

Definition text_is_raw (t : element_name) : bool :=
  bool_decide (namespaceURI t = HTML)
  && bool_decide (localName t ∈ raw_text_elements).

(** Serialisation of one child; [raw] says that the parent is an element
    whose text is written out as it is. *)
Fixpoint serialize_node (raw : bool) (n : node) : jsstring :=
  match n with
  | Element tag attrs cs =>
      js "<" ++ localName tag ++ flat_map serialize_attribute attrs ++ js ">" ++
      (if serializes_as_void tag then []
       else flat_map (serialize_node (text_is_raw tag)) cs
            ++ js "</" ++ localName tag ++ js ">")
  | Text d => if raw then d else escape false d
  | Comment d => js "<!--" ++ d ++ js "-->"
  end.

(** [el.innerHTML] read on the element [Element tag _ cs]. *)
Definition innerHTML (n : node) : jsstring :=
  match n with
  | Element tag _ cs => flat_map (serialize_node (text_is_raw tag)) cs
  | Text _ | Comment _ => []
  end.

(** ** The Emscripten runtime

    [Module._malloc] and [stringToUTF8] belong to the Emscripten runtime
    the externs are linked into, not to brunhild; they are modelled after
    the runtime's own source and documentation. *)

(** The heap of the compiled module: [HEAPU8] as a byte map, the blocks
    [Module._malloc] has handed out (address and size) and the address the
    next block starts at.  The allocator is idealised: it never runs out
    of memory and never reuses an address. *)
Record heap : Type := Heap {
  HEAPU8 : gmap Z Z;
  blocks : list (Z * Z);
  brk : Z
}.

(** [Module._malloc(len)]. *)
Definition malloc (len : Z) (h : heap) : Z * heap :=
  (brk h, Heap (HEAPU8 h) ((brk h, len) :: blocks h) (brk h + Z.max len 1)).

(** [HEAPU8[ptr + i] = bs[i]] for every byte of [bs]. *)
Fixpoint store_bytes (ptr : Z) (bs : list Z) (m : gmap Z Z) : gmap Z Z :=
  match bs with
  | [] => m
  | b :: bs' => store_bytes (ptr + 1) bs' (<[ptr := b]> m)
  end.

(** The C string at [ptr]: the bytes before the first NUL among the next
    [n] bytes, [None] when these hold no NUL. *)
Fixpoint c_string (m : gmap Z Z) (ptr : Z) (n : nat) : option (list Z) :=
  match n with
  | O => None
  | S n' =>
      match m !! ptr with
      | None => None
      | Some b => if b =? 0 then Some [] else cons b <$> c_string m (ptr + 1) n'
      end
  end.

Definition is_surrogate (c : Z) : bool := (0xD800 <=? c) && (c <=? 0xDFFF).

(** The code point [stringToUTF8] builds from a surrogate [c] and the
    code unit [d] that follows it. *)
Definition join_surrogates (c d : Z) : Z :=
  Z.lor (0x10000 + Z.shiftl (Z.land c 0x3FF) 10) (Z.land d 0x3FF).

(** The values of [u] the loop of [stringToUTF8] goes through: a code
    unit, or a surrogate joined with the unit after it ([charCodeAt] past
    the end contributes 0). *)
Fixpoint code_points (s : jsstring) : list Z :=
  match s with
  | [] => []
  | c :: tl =>
      if is_surrogate c then
        match tl with
        | [] => [join_surrogates c 0]
        | d :: tl' => join_surrogates c d :: code_points tl'
        end
      else c :: code_points tl
  end.

(** The UTF-8 bytes of one code point.  A code point built from UTF-16
    stays below [0x110000], so the five and six byte forms of the runtime
    are out of reach. *)
Definition utf8_bytes (u : Z) : list Z :=
  if u <=? 0x7F then [u]
  else if u <=? 0x7FF then
    [Z.lor 0xC0 (Z.shiftr u 6); Z.lor 0x80 (Z.land u 63)]
  else if u <=? 0xFFFF then
    [Z.lor 0xE0 (Z.shiftr u 12); Z.lor 0x80 (Z.land (Z.shiftr u 6) 63);
     Z.lor 0x80 (Z.land u 63)]
  else
    [Z.lor 0xF0 (Z.shiftr u 18); Z.lor 0x80 (Z.land (Z.shiftr u 12) 63);
     Z.lor 0x80 (Z.land (Z.shiftr u 6) 63); Z.lor 0x80 (Z.land u 63)].

(** The loop of [stringToUTF8]: it stops at the first character whose
    bytes would not leave room for the terminator before [endIdx]. *)
Fixpoint utf8_fill (us : list Z) (outIdx endIdx : Z) : list Z :=
  match us with
  | [] => []
  | u :: us' =>
      let bs := utf8_bytes u in
      if outIdx + (Z.of_nat (length bs) - 1) >=? endIdx then []
      else bs ++ utf8_fill us' (outIdx + Z.of_nat (length bs)) endIdx
  end.

(** The bytes [stringToUTF8] writes for a string when the room suffices
    for all of them.  A surrogate is joined with the unit after it
    whether or not the two form a pair. *)
Definition utf8_encode (s : jsstring) : list Z :=
  flat_map utf8_bytes (code_points s).

(** [stringToUTF8(str, outPtr, maxBytesToWrite)]: writes at most
    [maxBytesToWrite] bytes, the terminating NUL included, and nothing at
    all when [maxBytesToWrite] is not positive. *)
Definition stringToUTF8 (str : jsstring) (outPtr maxBytesToWrite : Z)
    (m : gmap Z Z) : gmap Z Z :=
  if maxBytesToWrite >? 0 then
    store_bytes outPtr
      (utf8_fill (code_points str) outPtr (outPtr + maxBytesToWrite - 1) ++ [0]) m
  else m.

(** ** The DOM mutation externs *)

Section Externs.

(** The HTML fragment parser behind the [innerHTML] and [outerHTML]
    setters: the nodes [html] parses to inside a context element with
    the given namespace and local name. *)
Variable parse_fragment : element_name → jsstring → list node.

(** The names [setAttribute] accepts. *)
Variable valid_attribute_name : jsstring → bool.

(** [el.outerHTML = html]: the parent of [el] parses [html] and puts
    the nodes in the place of [el]; the [Document] node refuses. *)
Definition outerHTML_set (el : path) (html : jsstring) (doc : document)
  : result document :=
  match parentNode el with
  | [] => Throws NoModificationAllowedError
  | parent =>
      match node_at doc parent with
      | Some (Element ptag _ _) =>
          Returns (update_children
                     (λ cs, take (sibling_index el) cs ++ parse_fragment ptag html
                            ++ drop (S (sibling_index el)) cs)
                     parent doc)
      | _ => Returns doc
      end
  end.

(** [el.innerHTML = html]. *)
Definition innerHTML_set (el : path) (html : jsstring) (doc : document)
  : document :=
  match node_at doc el with
  | Some (Element tag _ _) => update_children (λ _, parse_fragment tag html) el doc
  | _ => doc
  end.

(** [cont = document.createElement('div'); cont.innerHTML = html;
    cont.firstChild]. *)
Definition cont_firstChild (html : jsstring) : option node :=
  head (parse_fragment (html_name "div") html).

(** Setting an attribute value in an attribute list. *)
Fixpoint set_attribute_value (name val : jsstring)
    (attrs : list (jsstring * jsstring)) : list (jsstring * jsstring) :=
  match attrs with
  | [] => [(name, val)]
  | (k, v) :: rest =>
      if decide (k = name) then (k, val) :: rest
      else (k, v) :: set_attribute_value name val rest
  end.

Fixpoint remove_attribute_named (name : jsstring)
    (attrs : list (jsstring * jsstring)) : list (jsstring * jsstring) :=
  match attrs with
  | [] => []
  | (k, v) :: rest =>
      if decide (k = name) then rest
      else (k, v) :: remove_attribute_named name rest
  end.

(** The qualified name under which [setAttribute] and [removeAttribute]
    look for the attribute: on an element in the HTML namespace the
    argument in ASCII lower case, on an element of another namespace the
    argument as it is.  (The page is an HTML document.) *)
Definition attribute_name (t : element_name) (key : jsstring) : jsstring :=
  match namespaceURI t with
  | HTML => ascii_lowercase key
  | MathML | SVG => key
  end.

(** [el.setAttribute(key, val)]: the name is checked before it is
    lower-cased. *)
Definition setAttribute (el : path) (key val : jsstring) (doc : document)
  : result document :=
  if valid_attribute_name key
  then match node_at doc el with
       | Some (Element t _ _) =>
           Returns (update_attributes
                      (set_attribute_value (attribute_name t key) val) el doc)
       | _ => Returns doc
       end
  else Throws InvalidCharacterError.

(** [el.removeAttribute(key)]. *)
Definition removeAttribute (el : path) (key : jsstring) (doc : document)
  : document :=
  match node_at doc el with
  | Some (Element t _ _) =>
      update_attributes (remove_attribute_named (attribute_name t key)) el doc
  | _ => doc
  end.

(** [el.remove()]: calling a method on [null] is a [TypeError]. *)
Definition Element_remove (el : option path) (doc : document) : result document :=
  match el with
  | None => Throws TypeError
  | Some p =>
      Returns (update_children (λ cs, take (sibling_index p) cs
                                      ++ drop (S (sibling_index p)) cs)
                               (parentNode p) doc)
  end.

(** *** [externs.js] *)

Definition set_outer_html (id html : jsstring) (doc : document) : result document :=
  match getElementById doc id with
  | Some el => outerHTML_set el html doc
  | None => Returns doc
  end.

Definition set_inner_html (id html : jsstring) (doc : document) : result document :=
  match getElementById doc id with
  | Some el => Returns (innerHTML_set el html doc)
  | None => Returns doc
  end.

Definition get_inner_html (id : jsstring) (doc : document) (h : heap) : Z * heap :=
  let s :=
    match getElementById doc id with
    | Some el => from_option innerHTML [] (node_at doc el)
    | None => []
    end in
  let len := Z.of_nat (length s) + 1 in
  let '(buf, h1) := malloc len h in
  (buf, Heap (stringToUTF8 s buf len (HEAPU8 h1)) (blocks h1) (brk h1)).

Definition append (id html : jsstring) (doc : document) : result document :=
  match getElementById doc id with
  | None => Returns doc
  | Some el => appendChild el (cont_firstChild html) doc
  end.

Definition prepend (id html : jsstring) (doc : document) : result document :=
  match getElementById doc id with
  | None => Returns doc
  | Some el =>
      insertBefore el (cont_firstChild html)
        (firstChild_ref (default [] (childNodes_at doc el))) doc
  end.

Definition before (id html : jsstring) (doc : document) : result document :=
  match getElementById doc id with
  | None => Returns doc
  | Some el =>
      insertBefore (parentNode el) (cont_firstChild html)
        (Some (sibling_index el)) doc
  end.

Definition after (id html : jsstring) (doc : document) : result document :=
  match getElementById doc id with
  | None => Returns doc
  | Some el =>
      insertBefore (parentNode el) (cont_firstChild html)
        (nextSibling_ref (default [] (childNodes_at doc (parentNode el)))
                         (sibling_index el)) doc
  end.

(** [if (!el) { el.remove() }]: the call sits under the negated test. *)
Definition remove (id : jsstring) (doc : document) : result document :=
  let el := getElementById doc id in
  if negb (bool_decide (is_Some el)) then Element_remove el doc
  else Returns doc.

Definition set_attr (id key val : jsstring) (doc : document) : result document :=
  match getElementById doc id with
  | None => Returns doc
  | Some el => setAttribute el key val doc
  end.

Definition remove_attr (id key : jsstring) (doc : document) : result document :=
  match getElementById doc id with
  | None => Returns doc
  | Some el => Returns (removeAttribute el key doc)
  end.

(** The nine mutation externs under one name. *)
Inductive mutation : Type :=
| SetOuterHtml (id html : jsstring)
| SetInnerHtml (id html : jsstring)
| Append (id html : jsstring)
| Prepend (id html : jsstring)
| Before (id html : jsstring)
| After (id html : jsstring)
| Remove (id : jsstring)
| SetAttr (id key val : jsstring)
| RemoveAttr (id key : jsstring).

Definition target (m : mutation) : jsstring :=
  match m with
  | SetOuterHtml id _ | SetInnerHtml id _ | Append id _ | Prepend id _
  | Before id _ | After id _ | Remove id | SetAttr id _ _ | RemoveAttr id _ => id
  end.

Definition call (m : mutation) (doc : document) : result document :=
  match m with
  | SetOuterHtml id html => set_outer_html id html doc
  | SetInnerHtml id html => set_inner_html id html doc
  | Append id html => append id html doc
  | Prepend id html => prepend id html doc
  | Before id html => before id html doc
  | After id html => after id html doc
  | Remove id => remove id doc
  | SetAttr id key val => set_attr id key val doc
  | RemoveAttr id key => remove_attr id key doc
  end.

End Externs.

(** The earlier revision of the externs, before the [null] checks were
    added: every extern dereferences the result of [getElementById]. *)
Module Unguarded.
Section Externs.

Variable parse_fragment : element_name → jsstring → list node.

Definition set_outer_html (id html : jsstring) (doc : document) : result document :=
  match getElementById doc id with
  | None => Throws TypeError
  | Some el => outerHTML_set parse_fragment el html doc
  end.

Definition set_inner_html (id html : jsstring) (doc : document) : result document :=
  match getElementById doc id with
  | None => Throws TypeError
  | Some el => Returns (innerHTML_set parse_fragment el html doc)
  end.

Definition append (id html : jsstring) (doc : document) : result document :=
  match getElementById doc id with
  | None => Throws TypeError
  | Some el => appendChild el (cont_firstChild parse_fragment html) doc
  end.

Definition prepend (id html : jsstring) (doc : document) : result document :=
  match getElementById doc id with
  | None => Throws TypeError
  | Some el =>
      insertBefore el (cont_firstChild parse_fragment html)
        (firstChild_ref (default [] (childNodes_at doc el))) doc
  end.

Definition before (id html : jsstring) (doc : document) : result document :=
  match getElementById doc id with
  | None => Throws TypeError
  | Some el =>
      insertBefore (parentNode el) (cont_firstChild parse_fragment html)
        (Some (sibling_index el)) doc
  end.

Definition after (id html : jsstring) (doc : document) : result document :=
  match getElementById doc id with
  | None => Throws TypeError
  | Some el =>
      insertBefore (parentNode el) (cont_firstChild parse_fragment html)
        (nextSibling_ref (default [] (childNodes_at doc (parentNode el)))
                         (sibling_index el)) doc
  end.

End Externs.
End Unguarded.

(** ** Event delegation *)

(** The function object [register_listener] creates for one call: the
    [type] and [sel] its body closes over. *)
Record closure : Type := Closure {
  cl_type : jsstring;
  cl_sel : jsstring
}.

#[global] Instance closure_eq_dec : EqDecision closure.
Proof. solve_decision. Defined.

(** An entry of the event listener list of [document].  The callback is
    the identity of a function object: its index in [functions]. *)
Record listener : Type := Listener {
  l_type : jsstring;
  l_callback : nat;
  l_capture : bool;
  l_passive : bool
}.

(** The state the two listener externs share: [window.__bh_handlers]
    ([None] while the property is undefined), the listener list of
    [document] and the function objects allocated so far. *)
Record registry : Type := Registry {
  bh_handlers : option (gmap (list Z) nat);
  listeners : list listener;
  functions : list closure
}.

(** The page before any extern ran. *)
Definition fresh_page : registry := Registry None [] [].

(** Two listeners are the same entry when type, callback and capture
    agree. *)
Definition same_listener (type : jsstring) (callback : nat) (l : listener) : bool :=
  bool_decide (l_type l = type) && bool_decide (l_callback l = callback)
  && negb (l_capture l).

(** [document.addEventListener(type, callback, { passive: true })]. *)
Definition addEventListener (type : jsstring) (callback : nat)
    (ls : list listener) : list listener :=
  if existsb (same_listener type callback) ls then ls
  else ls ++ [Listener type callback false true].

Fixpoint remove_listener (type : jsstring) (callback : nat)
    (ls : list listener) : list listener :=
  match ls with
  | [] => []
  | l :: ls' =>
      if same_listener type callback l then ls'
      else l :: remove_listener type callback ls'
  end.

(** [document.removeEventListener(type, callback)]; [None] is the
    [undefined] a missing table entry reads as. *)
Definition removeEventListener (type : jsstring) (callback : option nat)
    (ls : list listener) : list listener :=
  match callback with
  | None => ls
  | Some f => remove_listener type f ls
  end.

(** The key of a pair in [window.__bh_handlers].  Every key holds a
    colon, so none meets a property the table object inherits and the
    table behaves as a finite map. *)
Definition handler_key (type sel : jsstring) : jsstring :=
  type ++ js ":" ++ sel.

Definition register_listener (type sel : jsstring) (st : registry) : registry :=
  let table := default ∅ (bh_handlers st) in
  let handler := length (functions st) in
  Registry (Some (<[handler_key type sel := handler]> table))
           (addEventListener type handler (listeners st))
           (functions st ++ [Closure type sel]).

Definition unregister_listener (type sel : jsstring) (st : registry)
  : result registry :=
  let key := handler_key type sel in
  match bh_handlers st with
  | None => Throws TypeError
  | Some table =>
      Returns (Registry (Some (delete key table))
                        (removeEventListener type (table !! key) (listeners st))
                        (functions st))
  end.

(** *** The object [attrs] of the handler

    An object is the list of its own properties in the order in which it
    lists its keys, which is the order [JSON.stringify] writes them in:
    the keys that are array indices first, in ascending numeric order,
    then the other keys in the order of their creation. *)

Definition is_digit (c : Z) : bool := (0x30 <=? c) && (c <=? 0x39).

(** The number a string of decimal digits denotes. *)
Definition digits_value (s : jsstring) : Z :=
  foldl (λ n c, 10 * n + (c - 0x30)) 0 s.

(** The array index a property key denotes, if any: the key is the
    decimal numeral, without leading zeros, of an integer below
    [2^32 - 1]. *)
Definition array_index (k : jsstring) : option Z :=
  match k with
  | [] => None
  | c :: rest =>
      if forallb is_digit k
         && (bool_decide (rest = []) || negb (c =? 0x30))
         && (digits_value k <? 2 ^ 32 - 1)
      then Some (digits_value k)
      else None
  end.

(** Place of a new property whose key is the array index [n]: behind the
    smaller indices. *)
Fixpoint insert_index (n : Z) (kv : jsstring * jsstring)
    (o : list (jsstring * jsstring)) : list (jsstring * jsstring) :=
  match o with
  | [] => [kv]
  | kv' :: o' =>
      match array_index kv'.1 with
      | Some m => if m <? n then kv' :: insert_index n kv o' else kv :: o
      | None => kv :: o
      end
  end.

(** A new own property. *)
Definition create_property (k v : jsstring) (o : list (jsstring * jsstring))
  : list (jsstring * jsstring) :=
  match array_index k with
  | Some n => insert_index n (k, v) o
  | None => o ++ [(k, v)]
  end.

(** A new value for an own property, which keeps its place. *)
Fixpoint replace_value (k v : jsstring) (o : list (jsstring * jsstring))
  : list (jsstring * jsstring) :=
  match o with
  | [] => []
  | (k', v') :: o' =>
      if decide (k' = k) then (k', v) :: o'
      else (k', v') :: replace_value k v o'
  end.

(** [o[k] = v] for a key that the prototype has no setter for. *)
Definition assign_property (k v : jsstring) (o : list (jsstring * jsstring))
  : list (jsstring * jsstring) :=
  match getAttribute k o with
  | Some _ => replace_value k v o
  | None => create_property k v o
  end.

(** [attrs[attr.name] = attr.value].  The object starts as [{}], so it
    inherits the [__proto__] accessor: assigning a string to that key
    stores nothing. *)
Definition object_set (o : list (jsstring * jsstring)) (kv : jsstring * jsstring)
  : list (jsstring * jsstring) :=
  if decide (kv.1 = js "__proto__") then o else assign_property kv.1 kv.2 o.

(** The loop over [el.attributes]. *)
Definition snapshot (attrs : list (jsstring * jsstring))
  : list (jsstring * jsstring) :=
  foldl object_set [] attrs.

(** A native event as the handler sees it. *)
Record event : Type := Event {
  e_type : jsstring;
  e_target : path
}.

(** One call of [delegate_event]. *)
Record delegated : Type := Delegated {
  d_type : jsstring;
  d_sel : jsstring;
  d_attrs : jsstring
}.

Section Delegation.

(** [el.matches(sel)] for the element at a path of the document;
    [None] when the selector does not parse ([SyntaxError]). *)
Variable matches : document → path → jsstring → option bool.

(** [JSON.stringify] of an object with the given own properties. *)
Variable JSON_stringify : list (jsstring * jsstring) → jsstring.

(** The body of the handler after the selector test. *)
Definition forward (c : closure) (doc : document) (el : path)
  : result (option delegated) :=
  match node_at doc el with
  | Some (Element _ attrs _) =>
      Returns (Some (Delegated (cl_type c) (cl_sel c)
                               (JSON_stringify (snapshot attrs))))
  | _ => Throws TypeError
  end.

(** The handler: [Returns None] is the early [return]. *)
Definition handler (c : closure) (doc : document) (e : event)
  : result (option delegated) :=
  let el := e_target e in
  match cl_sel c with
  | [] => forward c doc el
  | _ :: _ =>
      match node_at doc el with
      | Some (Element _ _ _) =>
          match matches doc el (cl_sel c) with
          | None => Throws SyntaxError
          | Some false => Returns None
          | Some true => forward c doc el
          end
      | _ => Returns None
      end
  end.

(** The listeners of [document] that an event delivered there invokes,
    in order, each with its outcome. *)
Definition dispatch (st : registry) (doc : document) (e : event)
  : list (result (option delegated)) :=
  (λ l, match functions st !! l_callback l with
        | Some c => handler c doc e
        | None => Throws TypeError
        end)
  <$> filter (λ l, l_type l = e_type e) (listeners st).

Definition delivered (r : result (option delegated)) : option delegated :=
  match r with
  | Returns o => o
  | Throws _ => None
  end.

(** What reaches [delegate_event] for one event. *)
Definition forwarded (st : registry) (doc : document) (e : event)
  : list delegated :=
  omap delivered (dispatch st doc e).

End Delegation.

(** The listeners whose handler was created for the pair. *)
Definition listeners_for (type sel : jsstring) (st : registry) : list listener :=
  filter (λ l, functions st !! l_callback l = Some (Closure type sel))
         (listeners st).

(** Every callback in the listener list is an allocated function. *)
Definition registry_wf (st : registry) : Prop :=
  Forall (λ l, (l_callback l < length (functions st))%nat) (listeners st).

(** A run of [register_listener] calls, one per pair, first to last. *)
Definition register_all (calls : list (jsstring * jsstring)) (st : registry)
  : registry :=
  foldl (λ st c, register_listener c.1 c.2 st) st calls.

(** How often a pair occurs in a run of calls. *)
Definition occurrences (type sel : jsstring) (calls : list (jsstring * jsstring))
  : nat :=
  length (filter (λ c, c = (type, sel)) calls).

(** ** Sample host functions and a sample page for the examples *)

(** A parser that knows the fragments the examples use; any other string
    without markup is one text node. *)
Definition sample_parse (context : element_name) (html : jsstring) : list node :=
  if decide (html = js "<p></p><b></b>")
  then [Element (html_name "p") [] []; Element (html_name "b") [] []]
  else if decide (html = js "<!--x--><i></i>")
  then [Comment (js "x"); Element (html_name "i") [] []]
  else if decide (html = []) then []
  else [Text html].

(** Type selectors only: the selector is a local name; the empty string
    is no selector. *)
Definition sample_matches (doc : document) (el : path) (sel : jsstring)
  : option bool :=
  match sel, node_at doc el with
  | _ :: _, Some (Element tag _ _) => Some (bool_decide (localName tag = sel))
  | _, _ => None
  end.

(** [JSON.stringify] for keys and values that need no escape. *)
Fixpoint join_members (ms : list jsstring) : jsstring :=
  match ms with
  | [] => []
  | m :: ms' =>
      match ms' with
      | [] => m
      | _ :: _ => m ++ js "," ++ join_members ms'
      end
  end.

Definition sample_stringify (o : list (jsstring * jsstring)) : jsstring :=
  js "{" ++
  join_members
    ((λ kv, [0x22] ++ kv.1 ++ [0x22] ++ js ":" ++ [0x22] ++ kv.2 ++ [0x22]) <$> o)
  ++ js "}".

(** [<html id="root"><body><div id="a">é</div><p id="b" class="x"></p>
    </body></html>] *)
Definition sample_page : document :=
  [Element (html_name "html") [(js "id", js "root")]
     [Element (html_name "body") []
        [Element (html_name "div") [(js "id", js "a")] [Text [0xE9]];
         Element (html_name "p") [(js "id", js "b"); (js "class", js "x")] []]]].

Definition empty_heap : heap := Heap ∅ [] 8.

(** [<div __proto__="x" class="y"></div>] *)
Definition proto_page : document :=
  [Element (html_name "div") [(js "__proto__", js "x"); (js "class", js "y")] []].

(** The allocator state the heap lemmas need: a positive break and every
    block below it. *)
Definition heap_wf (h : heap) : Prop :=
  0 < brk h ∧ Forall (λ b, b.1 + b.2 ≤ brk h) (blocks h).


(** ** Notions used by the further properties *)

(** [d] is [doc] with the child list of the node at [parent] replaced by
    [new]: the parent and its ancestors are otherwise the nodes they
    were, and every node outside the subtree of the parent is what it
    was. *)
Definition children_replaced (doc d : document) (parent : path)
    (new : list node) : Prop :=
  childNodes_at d parent = Some new ∧
  (∀ r, r `prefix_of` parent →
        shallow <$> node_at d r = shallow <$> node_at doc r) ∧
  (∀ r, unrelated r parent → node_at d r = node_at doc r).

(** [d] is [doc] with the attribute list of the element at [el] replaced
    by [new]: the element keeps its name and its children, and every
    node that is not the element or an ancestor of it is what it was;
    the ancestors keep their own names and attributes. *)
Definition attributes_replaced (doc d : document) (el : path)
    (new : list (jsstring * jsstring)) : Prop :=
  (∃ t a cs, node_at doc el = Some (Element t a cs)
             ∧ node_at d el = Some (Element t new cs)) ∧
  (∀ r, r `prefix_of` el → r ≠ el →
        shallow <$> node_at d r = shallow <$> node_at doc r) ∧
  (∀ r, ¬ r `prefix_of` el → node_at d r = node_at doc r).

(** A name test for the examples: any non-empty name without a space. *)
Definition sample_valid_name (name : jsstring) : bool :=
  bool_decide (name ≠ []) && negb (bool_decide (0x20 ∈ name)).

(** [<html><div id="c">hi<br></div></html>] *)
Definition plain_page : document :=
  [Element (html_name "html") []
     [Element (html_name "div") [(js "id", js "c")]
        [Text (js "hi"); Element (html_name "br") [] []]]].

(** [<html><body><svg id="s" viewBox="0 0 1 1"></svg></body></html>]:
    the parser puts the [svg] element into the SVG namespace and gives
    its attribute the mixed-case name. *)
Definition svg_page : document :=
  [Element (html_name "html") []
     [Element (html_name "body") []
        [Element (ElementName SVG (js "svg"))
           [(js "id", js "s"); (js "viewBox", js "0 0 1 1")] []]]].

(** The [div#a] of the sample page. *)
Definition sample_div : node :=
  Element (html_name "div") [(js "id", js "a")] [Text [0xE9]].

(** ** UTF-8 as the Unicode standard defines it *)

(** A JavaScript string holds 16-bit code units. *)
Definition code_units (s : jsstring) : Prop := Forall (λ c, 0 ≤ c ≤ 0xFFFF) s.

Definition high_surrogate (c : Z) : bool := (0xD800 <=? c) && (c <=? 0xDBFF).
Definition low_surrogate (c : Z) : bool := (0xDC00 <=? c) && (c <=? 0xDFFF).

(** The scalar values of a well-formed UTF-16 string: a code unit that
    is no surrogate stands for itself and a high surrogate followed by a
    low one for a supplementary character; [None] for a string with an
    unpaired surrogate, which is not well formed. *)
Fixpoint scalar_values (s : jsstring) : option (list Z) :=
  match s with
  | [] => Some []
  | c :: tl =>
      if high_surrogate c then
        match tl with
        | [] => None
        | d :: tl' =>
            if low_surrogate d
            then cons (0x10000 + (c - 0xD800) * 0x400 + (d - 0xDC00))
                   <$> scalar_values tl'
            else None
        end
      else if low_surrogate c then None
      else cons c <$> scalar_values tl
  end.

(** The UTF-8 code unit sequence of a scalar value. *)
Definition utf8_of_scalar (u : Z) : list Z :=
  if u <? 0x80 then [u]
  else if u <? 0x800 then [0xC0 + u / 0x40; 0x80 + u mod 0x40]
  else if u <? 0x10000 then
    [0xE0 + u / 0x1000; 0x80 + u / 0x40 mod 0x40; 0x80 + u mod 0x40]
  else
    [0xF0 + u / 0x40000; 0x80 + u / 0x1000 mod 0x40;
     0x80 + u / 0x40 mod 0x40; 0x80 + u mod 0x40].

(** The UTF-8 encoding of a well-formed string. *)
Definition utf8 (s : jsstring) : option (list Z) :=
  flat_map utf8_of_scalar <$> scalar_values s.

(** The array index of a property whose key is one. *)
Definition index_of (kv : jsstring * jsstring) : Z :=
  default 0 (array_index kv.1).

(** Ascending order of array indices. *)
Definition index_le (kv1 kv2 : jsstring * jsstring) : Prop :=
  index_of kv1 ≤ index_of kv2.

(** A call of one of the two listener externs. *)
Inductive listener_call : Type :=
| RegisterCall (type sel : jsstring)
| UnregisterCall (type sel : jsstring).

(** The page after a call.  [unregister_listener] throws while the
    argument of [removeEventListener] is evaluated, before anything is
    changed, so a call that throws leaves the page as it was. *)
Definition after_call (c : listener_call) (st : registry) : registry :=
  match c with
  | RegisterCall type sel => register_listener type sel st
  | UnregisterCall type sel =>
      match unregister_listener type sel st with
      | Returns st' => st'
      | Throws _ => st
      end
  end.

(** The page after a run of calls, first to last. *)
Definition after_calls (cs : list listener_call) (st : registry) : registry :=
  foldl (λ st c, after_call c st) st cs.

(** What every page reached by the listener externs satisfies: a
    listener is typed like the closure it runs and does not capture, no
    two listeners share a callback, and a table entry points to a
    closure whose pair has the key of the entry. *)
Definition registry_inv (st : registry) : Prop :=
  Forall (λ l, (∃ c, functions st !! l_callback l = Some c
                     ∧ cl_type c = l_type l)
               ∧ l_capture l = false) (listeners st)
  ∧ NoDup (l_callback <$> listeners st)
  ∧ ∀ table k f, bh_handlers st = Some table → table !! k = Some f →
                 ∃ c, functions st !! f = Some c
                      ∧ handler_key (cl_type c) (cl_sel c) = k.

(** The same pair registered [n] times in a row. *)
Definition register_times (n : nat) (type sel : jsstring) (st : registry)
  : registry :=
  Nat.iter n (register_listener type sel) st.
(** * Properties *)

(** ** Paths and element lookup *)

Lemma node_at_cons ns i p :
  node_at ns (i :: p) = ns !! i ≫= λ n, descend n p.
Proof.
  revert ns i. induction p as [|j p IH]; intros ns i.
  - simpl. by destruct (ns !! i).
  - change (node_at ns (i :: j :: p))
      with (match ns !! i with
            | Some (Element _ _ cs) => node_at cs (j :: p)
            | _ => None
            end).
    destruct (ns !! i) as [[t a cs| |]|]; simpl; try done.
    apply IH.
Qed.

Lemma first_hit_Some {A} (f : A → option (list nat)) ns i q :
  first_hit f ns i = Some q →
  ∃ k n p, ns !! k = Some n ∧ f n = Some p ∧ q = (i + k)%nat :: p.
Proof.
  revert i. induction ns as [|n ns IH]; intros i; simpl; [done|].
  destruct (f n) as [p|] eqn:Hf.
  - intros [= <-]. exists 0%nat, n, p. by rewrite Nat.add_0_r.
  - intros H. destruct (IH _ H) as (k & m & p & Hk & Hm & ->).
    exists (S k), m, p. split_and!; [done|done|]. f_equal. lia.
Qed.

Lemma first_hit_None {A} (f : A → option (list nat)) ns i :
  first_hit f ns i = None ↔ Forall (λ n, f n = None) ns.
Proof.
  revert i. induction ns as [|n ns IH]; intros i; simpl.
  - split; [constructor|done].
  - destruct (f n) eqn:Hf.
    + split; [done|]. inversion 1; congruence.
    + rewrite IH. split; [by constructor|by inversion 1].
Qed.

Lemma find_id_descend id n p :
  find_id id n = Some p →
  ∃ t a cs, descend n p = Some (Element t a cs) ∧ has_id id a = true.
Proof.
  revert p. induction n as [t a cs IH|d|d] using node_children_ind;
    intros p; simpl; try done.
  destruct (has_id id a) eqn:Hid.
  - intros [= <-]. by exists t, a, cs.
  - intros H. apply first_hit_Some in H as (k & c & q & Hk & Hc & ->).
    rewrite Forall_lookup in IH. destruct (IH k c Hk q Hc) as (t' & a' & cs' & Hd & Ha).
    exists t', a', cs'. simpl. by rewrite Hk.
Qed.

(** [getElementById] answers with the path of an element of the document
    that carries the ID. *)
Lemma getElementById_Some doc id el :
  getElementById doc id = Some el →
  ∃ t a cs, node_at doc el = Some (Element t a cs) ∧ has_id id a = true.
Proof.
  unfold getElementById. intros H.
  apply first_hit_Some in H as (k & c & q & Hk & Hc & ->).
  apply find_id_descend in Hc as (t & a & cs & Hd & Ha).
  exists t, a, cs. rewrite node_at_cons. simpl. by rewrite Hk.
Qed.

Lemma find_id_None id n p t a cs :
  find_id id n = None →
  descend n p = Some (Element t a cs) → has_id id a = false.
Proof.
  revert p. induction n as [t0 a0 cs0 IH|d|d] using node_children_ind;
    intros p Hf Hd.
  - simpl in Hf. destruct (has_id id a0) eqn:Hid; [done|].
    destruct p as [|i p]; [by simplify_eq/=|].
    simpl in Hd. destruct (cs0 !! i) as [c|] eqn:Hi; [|done]. simpl in Hd.
    apply first_hit_None in Hf.
    rewrite Forall_lookup in IH, Hf. exact (IH i c Hi p (Hf i c Hi) Hd).
  - destruct p; by simplify_eq/=.
  - destruct p; by simplify_eq/=.
Qed.

(** [getElementById] finds an element exactly when some element of the
    document carries the ID. *)
Lemma getElementById_live doc id :
  is_Some (getElementById doc id) ↔ live_element doc id.
Proof.
  split.
  - intros [el Hel]. exists el. by apply getElementById_Some.
  - intros (p & t & a & cs & Hn & Hid).
    destruct (getElementById doc id) as [el|] eqn:Hel; [by eexists|].
    exfalso. apply first_hit_None in Hel.
    destruct p as [|i p]; [done|].
    rewrite node_at_cons in Hn.
    destruct (doc !! i) as [c|] eqn:Hi; [|done]. simpl in Hn.
    rewrite Forall_lookup in Hel.
    rewrite (find_id_None id c p t a cs (Hel i c Hi) Hn) in Hid. done.
Qed.

Lemma getElementById_None doc id :
  getElementById doc id = None ↔ ¬ live_element doc id.
Proof.
  rewrite <- getElementById_live. by rewrite eq_None_not_Some.
Qed.

Lemma getElementById_nonempty doc id el :
  getElementById doc id = Some el → el ≠ [].
Proof.
  unfold getElementById. intros H.
  by apply first_hit_Some in H as (k & c & q & _ & _ & ->).
Qed.

Lemma descend_cons t a cs i p :
  descend (Element t a cs) (i :: p) = node_at cs (i :: p).
Proof. by rewrite node_at_cons. Qed.

Lemma descend_nonempty t a cs p :
  p ≠ [] → descend (Element t a cs) p = node_at cs p.
Proof. destruct p; [done|]. intros _. apply descend_cons. Qed.

Lemma node_at_children doc el t a cs :
  node_at doc el = Some (Element t a cs) → childNodes_at doc el = Some cs.
Proof.
  revert doc. induction el as [|i el IH]; intros doc; [done|].
  rewrite node_at_cons. simpl.
  destruct (doc !! i) as [n|]; simpl; [|done].
  destruct el as [|j el].
  - simpl. by intros [= ->].
  - destruct n as [t' a' cs'| |]; simpl; try done.
    rewrite <- node_at_cons. apply IH.
Qed.

Lemma node_at_snoc doc q i :
  node_at doc (q ++ [i]) = childNodes_at doc q ≫= λ sib, sib !! i.
Proof.
  revert doc. induction q as [|j q IH]; intros doc; [done|].
  change ((j :: q) ++ [i]) with (j :: (q ++ [i])).
  rewrite node_at_cons. simpl.
  destruct (doc !! j) as [[t a cs| |]|]; simpl; try by destruct q.
  rewrite descend_nonempty by by destruct q.
  apply IH.
Qed.

Lemma path_split (el : path) :
  el ≠ [] → el = parentNode el ++ [sibling_index el].
Proof. intros H. by apply app_removelast_last. Qed.

(** A found element sits at its index in the child list of its parent. *)
Lemma node_at_siblings doc el n :
  el ≠ [] → node_at doc el = Some n →
  ∃ sib, childNodes_at doc (parentNode el) = Some sib
         ∧ sib !! sibling_index el = Some n.
Proof.
  intros Hne H. rewrite (path_split el Hne), node_at_snoc in H.
  destruct (childNodes_at doc (parentNode el)) as [sib|]; [|done].
  by exists sib.
Qed.

(** The child list read back after an update. *)
Lemma childNodes_at_update f p doc cs :
  childNodes_at doc p = Some cs →
  childNodes_at (update_children f p doc) p = Some (f cs).
Proof.
  revert doc. induction p as [|i p IH]; intros doc; simpl.
  - by intros [= ->].
  - destruct (doc !! i) as [[t a cs0| |]|] eqn:Hi; try done.
    intros H. rewrite list_lookup_insert_eq by by eapply lookup_lt_Some.
    by apply IH.
Qed.

(** An update leaves the nodes unrelated to its place alone. *)
Lemma node_at_update_unrelated f p doc r :
  unrelated r p → node_at (update_children f p doc) r = node_at doc r.
Proof.
  revert doc r. induction p as [|i p IH]; intros doc r [Hrp Hpr].
  - destruct Hpr. apply prefix_nil.
  - destruct r as [|j r]; [destruct Hrp; apply prefix_nil|].
    rewrite !node_at_cons. cbn [update_children].
    destruct (doc !! i) as [[t a cs| |]|] eqn:Hi; try done.
    destruct (decide (j = i)) as [->|Hne].
    + rewrite list_lookup_insert_eq by by eapply lookup_lt_Some.
      rewrite Hi. simpl.
      destruct r as [|k r]; [destruct Hrp; by apply prefix_cons, prefix_nil|].
      rewrite !descend_cons. apply IH. split.
      * intros H. apply Hrp. by apply prefix_cons.
      * intros H. apply Hpr. by apply prefix_cons.
    + by rewrite list_lookup_insert_ne.
Qed.

(** An update keeps the node at its place and the ancestors of that node
    what they were, children apart. *)
Lemma node_at_update_ancestor f p doc r :
  r `prefix_of` p →
  shallow <$> node_at (update_children f p doc) r = shallow <$> node_at doc r.
Proof.
  revert doc r. induction p as [|i p IH]; intros doc r Hr.
  - apply prefix_nil_inv in Hr as ->. done.
  - destruct r as [|j r]; [done|].
    apply prefix_cons_inv_1 in Hr as Hji. subst j.
    apply prefix_cons_inv_2 in Hr.
    rewrite !node_at_cons. cbn [update_children].
    destruct (doc !! i) as [[t a cs| |]|] eqn:Hi; try by rewrite Hi.
    rewrite list_lookup_insert_eq by by eapply lookup_lt_Some.
    simpl.
    destruct r as [|k r]; [done|].
    rewrite !descend_cons. by apply IH.
Qed.

Lemma update_children_inserted_by f doc parent k n cs :
  childNodes_at doc parent = Some cs → (k ≤ length cs)%nat →
  f cs = take k cs ++ n :: drop k cs →
  inserted_at doc (update_children f parent doc) parent k n.
Proof.
  intros Hcs Hk Hf. exists cs. split_and!; [done|done| | |].
  - by rewrite (childNodes_at_update _ _ _ cs), Hf.
  - intros r Hr. by apply node_at_update_ancestor.
  - intros r Hr. by apply node_at_update_unrelated.
Qed.

(** ** Insertion externs *)

Lemma insertBefore_Returns parent n ref doc :
  parent ≠ [] ∨ document_accepts doc n = true →
  insertBefore parent (Some n) ref doc
  = Returns (update_children (insert_at ref n) parent doc).
Proof.
  intros H. unfold insertBefore. destruct parent as [|i q]; [|done].
  destruct H as [H|H]; [done|]. by rewrite H.
Qed.

Lemma comment_accepted doc n : is_comment n = true → document_accepts doc n = true.
Proof. by destruct n. Qed.

Section Insertion.
Variable parse_fragment : element_name → jsstring → list node.

Lemma cont_firstChild_cons html n rest :
  parse_fragment (html_name "div") html = n :: rest →
  cont_firstChild parse_fragment html = Some n.
Proof. unfold cont_firstChild. by intros ->. Qed.

Lemma append_inserts doc id html el n rest cs :
  getElementById doc id = Some el →
  parse_fragment (html_name "div") html = n :: rest →
  childNodes_at doc el = Some cs →
  ∃ d, append parse_fragment id html doc = Returns d
       ∧ inserted_at doc d el (length cs) n.
Proof.
  intros Hel Hp Hcs. unfold append, appendChild.
  rewrite Hel, (cont_firstChild_cons _ _ _ Hp).
  rewrite insertBefore_Returns
    by (left; by eapply getElementById_nonempty).
  eexists. split; [done|].
  eapply update_children_inserted_by; [done|done|].
  simpl. by rewrite firstn_all, drop_all.
Qed.

Lemma prepend_inserts doc id html el n rest cs :
  getElementById doc id = Some el →
  parse_fragment (html_name "div") html = n :: rest →
  childNodes_at doc el = Some cs →
  ∃ d, prepend parse_fragment id html doc = Returns d
       ∧ inserted_at doc d el 0 n.
Proof.
  intros Hel Hp Hcs. unfold prepend.
  rewrite Hel, (cont_firstChild_cons _ _ _ Hp), Hcs.
  rewrite insertBefore_Returns
    by (left; by eapply getElementById_nonempty).
  eexists. split; [done|].
  eapply update_children_inserted_by; [done|simpl; lia|].
  by destruct cs.
Qed.

Lemma before_inserts doc id html el n rest :
  getElementById doc id = Some el →
  parse_fragment (html_name "div") html = n :: rest →
  parentNode el ≠ [] ∨ is_comment n = true →
  ∃ d, before parse_fragment id html doc = Returns d
       ∧ inserted_at doc d (parentNode el) (sibling_index el) n.
Proof.
  intros Hel Hp Hok. unfold before.
  rewrite Hel, (cont_firstChild_cons _ _ _ Hp).
  rewrite insertBefore_Returns
    by (destruct Hok; [by left|right; by apply comment_accepted]).
  destruct (getElementById_Some _ _ _ Hel) as (t & a & cs & Hn & _).
  destruct (node_at_siblings doc el _ (getElementById_nonempty _ _ _ Hel) Hn)
    as (sib & Hsib & Hi).
  eexists. split; [done|].
  eapply update_children_inserted_by; [done| |done].
  apply lookup_lt_Some in Hi. lia.
Qed.

Lemma after_inserts doc id html el n rest :
  getElementById doc id = Some el →
  parse_fragment (html_name "div") html = n :: rest →
  parentNode el ≠ [] ∨ is_comment n = true →
  ∃ d, after parse_fragment id html doc = Returns d
       ∧ inserted_at doc d (parentNode el) (S (sibling_index el)) n.
Proof.
  intros Hel Hp Hok. unfold after.
  rewrite Hel, (cont_firstChild_cons _ _ _ Hp).
  rewrite insertBefore_Returns
    by (destruct Hok; [by left|right; by apply comment_accepted]).
  destruct (getElementById_Some _ _ _ Hel) as (t & a & cs & Hn & _).
  destruct (node_at_siblings doc el _ (getElementById_nonempty _ _ _ Hel) Hn)
    as (sib & Hsib & Hi).
  rewrite Hsib. simpl. apply lookup_lt_Some in Hi.
  eexists. split; [done|].
  eapply update_children_inserted_by; [done|lia|].
  unfold nextSibling_ref. case_decide as Hlt; [done|].
  assert (S (sibling_index el) = length sib) as -> by lia.
  simpl. by rewrite firstn_all, drop_all.
Qed.

(** The insertion externs raise when the HTML parses to no node. *)
Lemma insertion_without_node_throws doc id html el :
  getElementById doc id = Some el →
  parse_fragment (html_name "div") html = [] →
  append parse_fragment id html doc = Throws TypeError
  ∧ prepend parse_fragment id html doc = Throws TypeError
  ∧ before parse_fragment id html doc = Throws TypeError
  ∧ after parse_fragment id html doc = Throws TypeError.
Proof.
  intros Hel Hp. unfold append, prepend, before, after, appendChild, cont_firstChild.
  by rewrite Hel, Hp.
Qed.

(** Next to the root element the [Document] node takes comments only. *)
Lemma beside_root_refused doc id html el n rest :
  getElementById doc id = Some el →
  parse_fragment (html_name "div") html = n :: rest →
  parentNode el = [] → is_comment n = false →
  before parse_fragment id html doc = Throws HierarchyRequestError
  ∧ after parse_fragment id html doc = Throws HierarchyRequestError.
Proof.
  intros Hel Hp Hroot Hn. unfold before, after.
  rewrite Hel, (cont_firstChild_cons _ _ _ Hp), Hroot.
  destruct (getElementById_Some _ _ _ Hel) as (t & a & cs & Hat & _).
  destruct (node_at_siblings doc el _ (getElementById_nonempty _ _ _ Hel) Hat)
    as (sib & Hsib & Hi).
  rewrite Hroot in Hsib. injection Hsib as <-.
  assert (existsb is_element doc = true) as Hex.
  { apply existsb_exists. exists (Element t a cs).
    split; [|done]. apply list_elem_of_In. by eapply list_elem_of_lookup_2. }
  unfold insertBefore.
  assert (document_accepts doc n = false) as ->; [|done].
  destruct n; [|done|done]. simpl. by rewrite Hex.
Qed.

End Insertion.

(** C8, as amended.  For a live target and an HTML string whose parse has
    a first node [n] followed by [rest]: [append] puts exactly [n] in as
    the last child of the target and [prepend] as its first child;
    [before] and [after] put exactly [n] in as the sibling just before
    and just after the target when the parent of the target is an element
    or [n] is a comment, and raise [HierarchyRequestError] otherwise.
    The nodes of [rest] are dropped. *)
Theorem insertion_takes_first_node
    (parse_fragment : element_name → jsstring → list node)
    (doc : document) (id html : jsstring) (el : path) (n : node) (rest : list node) :
  getElementById doc id = Some el →
  parse_fragment (html_name "div") html = n :: rest →
  ∃ cs, childNodes_at doc el = Some cs ∧
    (∃ d, append parse_fragment id html doc = Returns d
          ∧ inserted_at doc d el (length cs) n) ∧
    (∃ d, prepend parse_fragment id html doc = Returns d
          ∧ inserted_at doc d el 0 n) ∧
    (parentNode el ≠ [] ∨ is_comment n = true →
     (∃ d, before parse_fragment id html doc = Returns d
           ∧ inserted_at doc d (parentNode el) (sibling_index el) n) ∧
     (∃ d, after parse_fragment id html doc = Returns d
           ∧ inserted_at doc d (parentNode el) (S (sibling_index el)) n)) ∧
    (parentNode el = [] → is_comment n = false →
     before parse_fragment id html doc = Throws HierarchyRequestError
     ∧ after parse_fragment id html doc = Throws HierarchyRequestError).
Proof.
  intros Hel Hp.
  destruct (getElementById_Some _ _ _ Hel) as (t & a & cs & Hn & _).
  apply node_at_children in Hn.
  exists cs. split_and!; [done| | | |].
  - by eapply append_inserts.
  - by eapply prepend_inserts.
  - intros Hok. split; [by eapply before_inserts|by eapply after_inserts].
  - intros Hroot Hc. by eapply beside_root_refused.
Qed.

Lemma insertion_takes_first_node_witness :
  getElementById sample_page (js "b") = Some [0; 0; 1]%nat
  ∧ sample_parse (html_name "div") (js "<p></p><b></b>")
    = [Element (html_name "p") [] []; Element (html_name "b") [] []]
  ∧ parentNode [0; 0; 1]%nat ≠ []
  ∧ ∃ cs, childNodes_at sample_page [0; 0; 1]%nat = Some cs ∧
    (∃ d, append sample_parse (js "b") (js "<p></p><b></b>") sample_page = Returns d
          ∧ inserted_at sample_page d [0; 0; 1]%nat (length cs) (Element (html_name "p") [] [])) ∧
    (∃ d, prepend sample_parse (js "b") (js "<p></p><b></b>") sample_page = Returns d
          ∧ inserted_at sample_page d [0; 0; 1]%nat 0 (Element (html_name "p") [] [])) ∧
    (∃ d, before sample_parse (js "b") (js "<p></p><b></b>") sample_page = Returns d
          ∧ inserted_at sample_page d (parentNode [0; 0; 1]%nat)
              (sibling_index [0; 0; 1]%nat) (Element (html_name "p") [] [])) ∧
    (∃ d, after sample_parse (js "b") (js "<p></p><b></b>") sample_page = Returns d
          ∧ inserted_at sample_page d (parentNode [0; 0; 1]%nat)
              (S (sibling_index [0; 0; 1]%nat)) (Element (html_name "p") [] [])).
Proof.
  split; [reflexivity|]. split; [reflexivity|]. split; [discriminate|].
  destruct (insertion_takes_first_node sample_parse sample_page (js "b")
              (js "<p></p><b></b>") [0; 0; 1]%nat (Element (html_name "p") [] [])
              [Element (html_name "b") [] []] eq_refl eq_refl)
    as (cs & Hcs & Happend & Hprepend & Hbeside & _).
  destruct Hbeside as [Hbefore Hafter]; [left; discriminate|].
  exists cs. repeat split; assumption.
Defined.

(** C8, counterexample to the claim as stated: the root element is a live
    target, the HTML parses to two elements, and [before] raises instead
    of inserting the first of them. *)
Lemma before_root_element_refused :
  getElementById sample_page (js "root") = Some [0%nat]
  ∧ sample_parse (html_name "div") (js "<p></p><b></b>")
    = [Element (html_name "p") [] []; Element (html_name "b") [] []]
  ∧ before sample_parse (js "root") (js "<p></p><b></b>") sample_page
    = Throws HierarchyRequestError.
Proof. by vm_compute. Qed.

(** ** Missing and live targets *)

Section Targets.
Variable parse_fragment : element_name → jsstring → list node.
Variable valid_attribute_name : jsstring → bool.

(** Every extern that tests [el] before using it returns at once on a
    missing target and leaves the document as it is. *)
Lemma guarded_missing_target_noop (m : mutation) (doc : document) :
  getElementById doc (target m) = None →
  (∀ id, m ≠ Remove id) →
  call parse_fragment valid_attribute_name m doc = Returns doc.
Proof.
  intros Hnone Hm.
  destruct m; simpl in *;
    unfold set_outer_html, set_inner_html, append, prepend, before, after,
      set_attr, remove_attr;
    try by rewrite Hnone.
  by destruct (Hm id).
Qed.

(** [remove] calls the method exactly when there is no element. *)
Lemma remove_missing_target (doc : document) (id : jsstring) :
  getElementById doc id = None → remove id doc = Throws TypeError.
Proof. intros H. unfold remove. by rewrite H. Qed.

Lemma remove_live_target (doc : document) (id : jsstring) (el : path) :
  getElementById doc id = Some el → remove id doc = Returns doc.
Proof. intros H. unfold remove. by rewrite H. Qed.

(** The revision without the tests raised on every missing target. *)
Lemma unguarded_missing_target_throws (doc : document) (id html : jsstring) :
  getElementById doc id = None →
  Unguarded.set_outer_html parse_fragment id html doc = Throws TypeError
  ∧ Unguarded.set_inner_html parse_fragment id html doc = Throws TypeError
  ∧ Unguarded.append parse_fragment id html doc = Throws TypeError
  ∧ Unguarded.prepend parse_fragment id html doc = Throws TypeError
  ∧ Unguarded.before parse_fragment id html doc = Throws TypeError
  ∧ Unguarded.after parse_fragment id html doc = Throws TypeError.
Proof.
  intros H.
  unfold Unguarded.set_outer_html, Unguarded.set_inner_html, Unguarded.append,
    Unguarded.prepend, Unguarded.before, Unguarded.after.
  by rewrite H.
Qed.

End Targets.

(** C2, the code at the failing input: [div#a] is a live element of the
    sample page, and after [remove("a")] the page is what it was, the
    element still in it. *)
Theorem remove_keeps_live_element :
  getElementById sample_page (js "a") = Some [0; 0; 0]%nat
  ∧ remove (js "a") sample_page = Returns sample_page
  ∧ node_at sample_page [0; 0; 0]%nat
    = Some (Element (html_name "div") [(js "id", js "a")] [Text [0xE9]]).
Proof. by vm_compute. Qed.

(** C3, the code at the failing input: no element of the sample page has
    the ID [zz], and [remove("zz")] raises [TypeError]. *)
Theorem remove_missing_target_raises :
  getElementById sample_page (js "zz") = None
  ∧ remove (js "zz") sample_page = Throws TypeError.
Proof. by vm_compute. Qed.

(** ** The listener registry *)

Lemma existsb_same_listener_fresh type f ls :
  Forall (λ l, (l_callback l < f)%nat) ls →
  existsb (same_listener type f) ls = false.
Proof.
  induction 1 as [|l ls Hl _ IH]; [done|]. simpl. rewrite IH.
  unfold same_listener. rewrite (bool_decide_eq_false_2 (l_callback l = f)) by lia.
  by rewrite andb_false_r.
Qed.

(** A handler just created is no entry of the listener list yet, so
    [addEventListener] appends it. *)
Lemma addEventListener_fresh type f ls :
  Forall (λ l, (l_callback l < f)%nat) ls →
  addEventListener type f ls = ls ++ [Listener type f false true].
Proof.
  intros H. unfold addEventListener. by rewrite existsb_same_listener_fresh.
Qed.

Lemma remove_listener_fresh type f ls :
  Forall (λ l, (l_callback l < f)%nat) ls →
  remove_listener type f (ls ++ [Listener type f false true]) = ls.
Proof.
  induction 1 as [|l ls Hl _ IH]; simpl.
  - unfold same_listener. simpl. by rewrite !bool_decide_eq_true_2.
  - unfold same_listener at 1.
    rewrite (bool_decide_eq_false_2 (l_callback l = f)) by lia.
    rewrite andb_false_r. simpl. by rewrite IH.
Qed.

Lemma listeners_register type sel st :
  registry_wf st →
  listeners (register_listener type sel st)
  = listeners st ++ [Listener type (length (functions st)) false true].
Proof. intros Hwf. simpl. by apply addEventListener_fresh. Qed.

Lemma register_listener_wf type sel st :
  registry_wf st → registry_wf (register_listener type sel st).
Proof.
  intros Hwf. unfold registry_wf. rewrite listeners_register by done.
  simpl. rewrite length_app, Forall_app. simpl. split.
  - eapply Forall_impl; [exact Hwf|]. simpl. intros; lia.
  - repeat constructor. simpl. lia.
Qed.

(** Allocating a function does not change which closure an older listener
    runs. *)
Lemma filter_closure_old (fs : list closure) c c' (ls : list listener) :
  Forall (λ l, (l_callback l < length fs)%nat) ls →
  filter (λ l, (fs ++ [c']) !! l_callback l = Some c) ls
  = filter (λ l, fs !! l_callback l = Some c) ls.
Proof.
  induction 1 as [|l ls Hl _ IH]; [done|].
  rewrite !filter_cons, IH, lookup_app_l by done.
  by destruct (decide (fs !! l_callback l = Some c)).
Qed.

Lemma listeners_for_register type sel t s st :
  registry_wf st →
  listeners_for t s (register_listener type sel st)
  = listeners_for t s st
    ++ (if decide ((type, sel) = (t, s))
        then [Listener type (length (functions st)) false true] else []).
Proof.
  intros Hwf. unfold listeners_for.
  rewrite listeners_register by done.
  cbn [functions register_listener]. rewrite filter_app.
  rewrite filter_closure_old by done. f_equal.
  rewrite filter_cons, filter_nil. cbn [l_callback].
  rewrite list_lookup_middle by done.
  destruct (decide ((type, sel) = (t, s))) as [[= -> ->]|Hne].
  - by rewrite decide_True.
  - rewrite decide_False; [done|]. intros [= -> ->]. done.
Qed.

Lemma register_all_wf calls st :
  registry_wf st → registry_wf (register_all calls st).
Proof.
  revert st. induction calls as [|c calls IH]; intros st Hwf; [done|].
  apply IH. by apply register_listener_wf.
Qed.

Lemma register_keeps_entries type sel st table k :
  bh_handlers st = Some table → is_Some (table !! k) →
  ∃ table', bh_handlers (register_listener type sel st) = Some table'
            ∧ is_Some (table' !! k).
Proof.
  intros Ht Hk. simpl. rewrite Ht. simpl. eexists. split; [done|].
  rewrite lookup_insert. by case_decide.
Qed.

Lemma register_all_keeps_entries calls st table k :
  bh_handlers st = Some table → is_Some (table !! k) →
  ∃ table', bh_handlers (register_all calls st) = Some table'
            ∧ is_Some (table' !! k).
Proof.
  revert st table. induction calls as [|c calls IH]; intros st table Ht Hk.
  - by exists table.
  - destruct (register_keeps_entries c.1 c.2 st table k Ht Hk) as (table' & Ht' & Hk').
    by apply (IH _ table').
Qed.

(** C1, as amended.  Every call of [register_listener] attaches one more
    native listener to the document and writes the table entry under the
    key of its pair: after a run of calls the document has as many new
    listeners as there were calls, the listeners of a pair are as many
    as the calls made for it, and the table holds an entry under the key
    of every pair that was registered. *)
Theorem register_attaches_one_listener_per_call
    (calls : list (jsstring * jsstring)) (st : registry) :
  registry_wf st →
  length (listeners (register_all calls st))
  = (length (listeners st) + length calls)%nat
  ∧ (∀ t s, length (listeners_for t s (register_all calls st))
            = (length (listeners_for t s st) + occurrences t s calls)%nat)
  ∧ (∀ t s, (t, s) ∈ calls →
            ∃ table, bh_handlers (register_all calls st) = Some table
                     ∧ is_Some (table !! handler_key t s)).
Proof.
  revert st. induction calls as [|[t0 s0] calls IH]; intros st Hwf.
  - split_and!; [simpl; lia| |].
    + intros t s. unfold occurrences. simpl. lia.
    + intros t s H. by apply elem_of_nil in H.
  - destruct (IH (register_listener t0 s0 st)) as (Hlen & Hfor & Htab);
      [by apply register_listener_wf|].
    change (register_all ((t0, s0) :: calls) st)
      with (register_all calls (register_listener t0 s0 st)).
    split_and!.
    + rewrite Hlen, listeners_register, length_app by done. simpl. lia.
    + intros t s. rewrite Hfor, listeners_for_register, length_app by done.
      unfold occurrences. rewrite filter_cons.
      destruct (decide ((t0, s0) = (t, s))); simpl; lia.
    + intros t s [[= -> ->]|Hin]%elem_of_cons; [|by apply Htab].
      eapply register_all_keeps_entries; [done|].
      rewrite lookup_insert_eq. by eexists.
Qed.

Lemma register_attaches_one_listener_per_call_witness :
  registry_wf fresh_page
  ∧ length (listeners (register_all [(js "click", js ".btn"); (js "click", js ".btn")]
                                    fresh_page))
    = (length (listeners fresh_page) + 2)%nat
  ∧ (∀ t s, length (listeners_for t s
                      (register_all [(js "click", js ".btn"); (js "click", js ".btn")]
                                    fresh_page))
            = (length (listeners_for t s fresh_page)
               + occurrences t s [(js "click", js ".btn"); (js "click", js ".btn")])%nat)
  ∧ (∀ t s, (t, s) ∈ [(js "click", js ".btn"); (js "click", js ".btn")] →
            ∃ table,
              bh_handlers (register_all [(js "click", js ".btn"); (js "click", js ".btn")]
                                        fresh_page) = Some table
              ∧ is_Some (table !! handler_key t s)).
Proof.
  split; [constructor|].
  apply (register_attaches_one_listener_per_call
           [(js "click", js ".btn"); (js "click", js ".btn")] fresh_page).
  constructor.
Defined.

(** C1, counterexample to the claim as stated: registering the pair
    [("click", ".btn")] twice on a fresh page leaves two native listeners
    for it, not one. *)
Lemma register_twice_attaches_two_listeners :
  length (listeners_for (js "click") (js ".btn")
            (register_listener (js "click") (js ".btn")
               (register_listener (js "click") (js ".btn") fresh_page)))
  = 2%nat
  ∧ length (listeners
              (register_listener (js "click") (js ".btn")
                 (register_listener (js "click") (js ".btn") fresh_page)))
    ≠ 1%nat.
Proof. split; [by vm_compute|]. vm_compute. lia. Qed.

(** Unregistering a key the table does not hold changes nothing, once
    the table exists. *)
Lemma unregister_absent_key_noop type sel st table :
  bh_handlers st = Some table →
  table !! handler_key type sel = None →
  unregister_listener type sel st = Returns st.
Proof.
  intros Ht Hk. unfold unregister_listener. rewrite Ht, Hk. simpl.
  rewrite delete_id by done. destruct st; simpl in *. by subst.
Qed.

Lemma remove_listener_wf type f ls n :
  Forall (λ l, (l_callback l < n)%nat) ls →
  Forall (λ l, (l_callback l < n)%nat) (remove_listener type f ls).
Proof.
  induction 1 as [|l ls Hl Hls IH]; simpl; [done|].
  destruct (same_listener type f l); [done|]. by constructor.
Qed.

(** The callbacks stay allocated functions through [unregister_listener]
    as well: every page reached from [fresh_page] is well formed. *)
Lemma unregister_listener_wf type sel st st' :
  registry_wf st →
  unregister_listener type sel st = Returns st' →
  registry_wf st'.
Proof.
  intros Hwf. unfold unregister_listener.
  destruct (bh_handlers st) as [table|]; [|done].
  intros [= <-]. unfold registry_wf. cbn [listeners functions].
  destruct (table !! handler_key type sel); [|done].
  by apply remove_listener_wf.
Qed.

(** The key does not tell [("a:b", "c")] from [("a", "b:c")]:
    unregistering the second pair, which was never registered, deletes
    the table entry of the first and leaves its listener attached. *)
Lemma unregister_deletes_colliding_entry :
  handler_key (js "a:b") (js "c") = handler_key (js "a") (js "b:c")
  ∧ unregister_listener (js "a") (js "b:c")
      (register_listener (js "a:b") (js "c") fresh_page)
    = Returns (Registry (Some ∅) [Listener (js "a:b") 0 false true]
                        [Closure (js "a:b") (js "c")]).
Proof. split; [reflexivity|]. by vm_compute. Qed.

(** C4, the code on the page where no registration has ever occurred:
    [window.__bh_handlers] is still undefined and reading a key of it
    raises [TypeError], whatever the pair. *)
Theorem unregister_before_any_register_raises (type sel : jsstring) :
  unregister_listener type sel fresh_page = Throws TypeError.
Proof. reflexivity. Qed.

Section Forwarding.
Variable matches : document → path → jsstring → option bool.
Variable JSON_stringify : list (jsstring * jsstring) → jsstring.

Lemma forward_Returns c doc el o :
  forward JSON_stringify c doc el = Returns o →
  ∃ t a cs, node_at doc el = Some (Element t a cs)
            ∧ o = Some (Delegated (cl_type c) (cl_sel c)
                                  (JSON_stringify (snapshot a))).
Proof.
  unfold forward. destruct (node_at doc el) as [[t a cs| |]|]; try done.
  intros [= <-]. by exists t, a, cs.
Qed.

(** Whatever a handler forwards carries the pair it was created for and
    the snapshot of the target element. *)
Lemma handler_forwards_own_pair c doc e d :
  handler matches JSON_stringify c doc e = Returns (Some d) →
  ∃ t a cs, node_at doc (e_target e) = Some (Element t a cs)
            ∧ d = Delegated (cl_type c) (cl_sel c) (JSON_stringify (snapshot a)).
Proof.
  unfold handler. intros H.
  assert (forward JSON_stringify c doc (e_target e) = Returns (Some d)) as Hf.
  { destruct (cl_sel c); [done|].
    destruct (node_at doc (e_target e)) as [[t a cs| |]|]; try done.
    by destruct (matches doc (e_target e) _) as [[]|]. }
  apply forward_Returns in Hf as (t & a & cs & Hn & [= ->]). by exists t, a, cs.
Qed.

(** With a selector, the handler forwards for an element that matches
    it and returns early for one that does not. *)
Lemma handler_with_selector c doc e t a cs :
  cl_sel c ≠ [] →
  node_at doc (e_target e) = Some (Element t a cs) →
  handler matches JSON_stringify c doc e
  = match matches doc (e_target e) (cl_sel c) with
    | Some true =>
        Returns (Some (Delegated (cl_type c) (cl_sel c)
                                 (JSON_stringify (snapshot a))))
    | Some false => Returns None
    | None => Throws SyntaxError
    end.
Proof.
  intros Hsel Hn. unfold handler, forward. rewrite Hn.
  destruct (cl_sel c); [done|].
  by destruct (matches doc (e_target e) _) as [[]|].
Qed.

(** Without a selector the handler never asks [matches]. *)
Lemma handler_without_selector c doc e t a cs :
  cl_sel c = [] →
  node_at doc (e_target e) = Some (Element t a cs) →
  handler matches JSON_stringify c doc e
  = Returns (Some (Delegated (cl_type c) [] (JSON_stringify (snapshot a)))).
Proof.
  intros Hsel Hn. unfold handler, forward. by rewrite Hsel, Hn.
Qed.

Lemma forwarded_from_listener st doc e d :
  d ∈ forwarded matches JSON_stringify st doc e →
  ∃ l c, l ∈ listeners st ∧ functions st !! l_callback l = Some c
         ∧ d_type d = cl_type c ∧ d_sel d = cl_sel c.
Proof.
  unfold forwarded, dispatch.
  intros (r & Hr & Hd)%list_elem_of_omap.
  apply list_elem_of_fmap in Hr as (l & -> & Hl).
  apply list_elem_of_filter in Hl as [_ Hl].
  destruct (functions st !! l_callback l) as [c|] eqn:Hc; [|done].
  destruct (handler matches JSON_stringify c doc e) as [o|] eqn:Hh; [|done].
  simpl in Hd. subst o.
  apply handler_forwards_own_pair in Hh as (t & a & cs & _ & ->).
  by exists l, c.
Qed.

Lemma listener_forwards st doc e l c d :
  l ∈ listeners st → l_type l = e_type e →
  functions st !! l_callback l = Some c →
  handler matches JSON_stringify c doc e = Returns (Some d) →
  d ∈ forwarded matches JSON_stringify st doc e.
Proof.
  intros Hl Ht Hc Hh. unfold forwarded, dispatch.
  apply list_elem_of_omap.
  exists (Returns (Some d)). split; [|done].
  apply list_elem_of_fmap. exists l. rewrite Hc, Hh. split; [done|].
  by apply list_elem_of_filter.
Qed.

End Forwarding.

Lemma register_then_unregister type sel st :
  registry_wf st →
  unregister_listener type sel (register_listener type sel st)
  = Returns (Registry (Some (delete (handler_key type sel) (default ∅ (bh_handlers st))))
                      (listeners st)
                      (functions st ++ [Closure type sel])).
Proof.
  intros Hwf. unfold unregister_listener.
  cbn [bh_handlers register_listener]. rewrite lookup_insert_eq.
  cbn [removeEventListener listeners functions register_listener].
  rewrite addEventListener_fresh, remove_listener_fresh by done.
  by rewrite delete_insert_eq.
Qed.

(** C7, as amended.  When no listener of the pair is attached before the
    call (and every attached callback is an allocated function),
    [register_listener] followed by [unregister_listener] leaves the
    listener list as it was, with no listener of the pair in it, no table
    entry under the key of the pair, and no event forwarded with the
    pair from then on. *)
Theorem register_unregister_removes_listener
    (type sel : jsstring) (st : registry) :
  registry_wf st →
  listeners_for type sel st = [] →
  ∃ st', unregister_listener type sel (register_listener type sel st) = Returns st'
    ∧ listeners st' = listeners st
    ∧ listeners_for type sel st' = []
    ∧ (∃ table, bh_handlers st' = Some table
                ∧ table !! handler_key type sel = None)
    ∧ ∀ matches JSON_stringify doc e d,
        d ∈ forwarded matches JSON_stringify st' doc e →
        ¬ (d_type d = type ∧ d_sel d = sel).
Proof.
  intros Hwf Hnone. eexists. split; [by apply register_then_unregister|].
  assert (listeners_for type sel
            (Registry (Some (delete (handler_key type sel) (default ∅ (bh_handlers st))))
                      (listeners st) (functions st ++ [Closure type sel])) = []) as Hfor.
  { unfold listeners_for. cbn [functions listeners].
    rewrite filter_closure_old by done. exact Hnone. }
  split_and!; [done|done| |].
  - eexists. split; [done|]. apply lookup_delete_eq.
  - intros matches JSON_stringify doc e d Hd [Ht Hs].
    apply forwarded_from_listener in Hd as (l & c & Hl & Hc & Htc & Hsc).
    assert (l ∈ listeners_for type sel
              (Registry (Some (delete (handler_key type sel) (default ∅ (bh_handlers st))))
                        (listeners st) (functions st ++ [Closure type sel]))) as Hin.
    { apply list_elem_of_filter. split; [|done].
      rewrite Hc. destruct c; simpl in *. congruence. }
    rewrite Hfor in Hin. by apply elem_of_nil in Hin.
Qed.

Lemma register_unregister_removes_listener_witness :
  registry_wf fresh_page
  ∧ listeners_for (js "click") (js "p") fresh_page = []
  ∧ ∃ st', unregister_listener (js "click") (js "p")
             (register_listener (js "click") (js "p") fresh_page) = Returns st'
    ∧ listeners st' = listeners fresh_page
    ∧ listeners_for (js "click") (js "p") st' = []
    ∧ (∃ table, bh_handlers st' = Some table
                ∧ table !! handler_key (js "click") (js "p") = None)
    ∧ ∀ matches JSON_stringify doc e d,
        d ∈ forwarded matches JSON_stringify st' doc e →
        ¬ (d_type d = js "click" ∧ d_sel d = js "p").
Proof.
  split; [constructor|]. split; [reflexivity|].
  apply (register_unregister_removes_listener (js "click") (js "p") fresh_page).
  - constructor.
  - reflexivity.
Defined.

(** C7, counterexample to the claim as stated: on a page where the pair
    [("click", "p")] is registered already, [register_listener] followed
    by [unregister_listener] leaves a native listener of the pair
    attached, and a click on the [p] element of the sample page is still
    forwarded. *)
Lemma unregister_leaves_earlier_listener :
  ∃ st', unregister_listener (js "click") (js "p")
           (register_listener (js "click") (js "p")
              (register_listener (js "click") (js "p") fresh_page)) = Returns st'
    ∧ listeners_for (js "click") (js "p") st'
      = [Listener (js "click") 0 false true]
    ∧ forwarded sample_matches sample_stringify st' sample_page
        (Event (js "click") [0; 0; 1]%nat)
      = [Delegated (js "click") (js "p")
           (sample_stringify [(js "id", js "b"); (js "class", js "x")])].
Proof. eexists. split; [reflexivity|]. by vm_compute. Qed.

(** ** What the handler forwards *)

Lemma getAttribute_app k (o1 o2 : list (jsstring * jsstring)) :
  getAttribute k (o1 ++ o2)
  = match getAttribute k o1 with
    | Some v => Some v
    | None => getAttribute k o2
    end.
Proof.
  induction o1 as [|[k' v'] o1 IH]; [done|]. simpl.
  by destruct (decide (k' = k)).
Qed.

Lemma getAttribute_replace_value k k' v o :
  getAttribute k (replace_value k' v o)
  = if decide (k' = k) then (λ _, v) <$> getAttribute k o else getAttribute k o.
Proof.
  induction o as [|[k1 v1] o IH]; simpl.
  - by destruct (decide (k' = k)).
  - destruct (decide (k1 = k')) as [->|Hne]; simpl.
    + by destruct (decide (k' = k)).
    + rewrite IH. destruct (decide (k' = k)) as [->|]; [|done].
      by rewrite !decide_False.
Qed.

Lemma getAttribute_insert_index k n k' v o :
  getAttribute k' o = None →
  getAttribute k (insert_index n (k', v) o)
  = if decide (k' = k) then Some v else getAttribute k o.
Proof.
  induction o as [|[k1 v1] o IH]; [done|].
  cbn [getAttribute insert_index fst].
  destruct (decide (k1 = k')) as [|Hne]; [done|]. intros Hnone.
  destruct (array_index k1) as [m|]; [destruct (m <? n)|].
  - cbn [getAttribute]. rewrite IH by done.
    destruct (decide (k1 = k)) as [->|]; [|done]. by rewrite decide_False.
  - done.
  - done.
Qed.

Lemma getAttribute_assign k k' v o :
  getAttribute k (assign_property k' v o)
  = if decide (k' = k) then Some v else getAttribute k o.
Proof.
  unfold assign_property. destruct (getAttribute k' o) as [w|] eqn:Hk'.
  - rewrite getAttribute_replace_value.
    destruct (decide (k' = k)) as [<-|]; [|done]. by rewrite Hk'.
  - unfold create_property. destruct (array_index k') as [n|].
    + by apply getAttribute_insert_index.
    + rewrite getAttribute_app. simpl.
      destruct (decide (k' = k)) as [<-|]; [by rewrite Hk'|].
      by destruct (getAttribute k o).
Qed.

Lemma getAttribute_object_set k o kv :
  getAttribute k (object_set o kv)
  = if decide (kv.1 = js "__proto__") then getAttribute k o
    else if decide (kv.1 = k) then Some kv.2 else getAttribute k o.
Proof.
  unfold object_set. destruct (decide (kv.1 = js "__proto__")); [done|].
  apply getAttribute_assign.
Qed.

Lemma getAttribute_foldl_object_set k attrs o :
  getAttribute k (foldl object_set o attrs)
  = if decide (k = js "__proto__") then getAttribute k o
    else match getAttribute k (reverse attrs) with
         | Some v => Some v
         | None => getAttribute k o
         end.
Proof.
  revert o. induction attrs as [|[k1 v1] attrs IH]; intros o.
  - simpl. by destruct (decide (k = js "__proto__")).
  - cbn [foldl]. rewrite IH, reverse_cons, getAttribute_app, getAttribute_object_set.
    cbn [fst snd getAttribute].
    destruct (getAttribute k (reverse attrs));
      repeat case_decide; by simplify_eq.
Qed.

(** The snapshot maps every attribute name other than [__proto__] to the
    value the loop assigned last for it, and holds no other key. *)
Lemma snapshot_lookup k attrs :
  k ≠ js "__proto__" →
  getAttribute k (snapshot attrs) = getAttribute k (reverse attrs).
Proof.
  intros Hk. unfold snapshot. rewrite getAttribute_foldl_object_set.
  rewrite decide_False by done. by destruct (getAttribute k (reverse attrs)).
Qed.

Lemma snapshot_lookup_proto attrs :
  getAttribute (js "__proto__") (snapshot attrs) = None.
Proof.
  unfold snapshot. rewrite getAttribute_foldl_object_set. by rewrite decide_True.
Qed.

Lemma addEventListener_elem type f ls :
  ∃ l, l ∈ addEventListener type f ls ∧ l_type l = type ∧ l_callback l = f.
Proof.
  unfold addEventListener.
  destruct (existsb (same_listener type f) ls) eqn:E.
  - apply existsb_exists in E as (l & Hl & Hs).
    exists l. split; [by apply list_elem_of_In|].
    unfold same_listener in Hs.
    apply andb_prop in Hs as [Hs _]. apply andb_prop in Hs as [H1 H2].
    split; by eapply bool_decide_eq_true_1.
  - exists (Listener type f false true). split; [|done].
    apply elem_of_app. right. by apply list_elem_of_singleton.
Qed.

(** C9, as amended.  The handler created for a pair with the empty
    selector forwards [(t, "", snapshot)] for every event whose target is
    an element, whichever element it is, and after
    [register_listener(t, "")] every event of type [t] that is delivered
    to the document and whose target is an element is forwarded that
    way.  Both hold for every [matches]: the selector test plays no
    part.  The snapshot is the serialised object that maps every
    attribute name other than [__proto__] to the value the target holds
    for it (the one assigned last, should a name occur twice). *)
Theorem empty_selector_forwards_every_element
    (matches : document → path → jsstring → option bool)
    (JSON_stringify : list (jsstring * jsstring) → jsstring)
    (st : registry) (doc : document) (e : event)
    (tag : element_name) (attrs : list (jsstring * jsstring)) (cs : list node) :
  node_at doc (e_target e) = Some (Element tag attrs cs) →
  handler matches JSON_stringify (Closure (e_type e) []) doc e
  = Returns (Some (Delegated (e_type e) [] (JSON_stringify (snapshot attrs))))
  ∧ Delegated (e_type e) [] (JSON_stringify (snapshot attrs))
    ∈ forwarded matches JSON_stringify (register_listener (e_type e) [] st) doc e
  ∧ (∀ k, k ≠ js "__proto__" →
          getAttribute k (snapshot attrs) = getAttribute k (reverse attrs)).
Proof.
  intros Hn.
  assert (handler matches JSON_stringify (Closure (e_type e) []) doc e
          = Returns (Some (Delegated (e_type e) []
                                     (JSON_stringify (snapshot attrs))))) as Hh
    by by rewrite (handler_without_selector _ _ _ _ _ tag attrs cs).
  split; [exact Hh|]. split; [|intros k Hk; by apply snapshot_lookup].
  destruct (addEventListener_elem (e_type e) (length (functions st)) (listeners st))
    as (l & Hl & Ht & Hf).
  eapply (listener_forwards _ _ _ _ _ l (Closure (e_type e) [])).
  - exact Hl.
  - exact Ht.
  - rewrite Hf. cbn [functions register_listener]. by apply list_lookup_middle.
  - exact Hh.
Qed.

Lemma empty_selector_forwards_every_element_witness :
  node_at sample_page [0; 0; 1]%nat
  = Some (Element (html_name "p") [(js "id", js "b"); (js "class", js "x")] [])
  ∧ handler (λ _ _ _, Some false) sample_stringify (Closure (js "click") [])
      sample_page (Event (js "click") [0; 0; 1]%nat)
    = Returns (Some (Delegated (js "click") []
                       (sample_stringify
                          (snapshot [(js "id", js "b"); (js "class", js "x")]))))
  ∧ Delegated (js "click") []
      (sample_stringify (snapshot [(js "id", js "b"); (js "class", js "x")]))
    ∈ forwarded (λ _ _ _, Some false) sample_stringify
        (register_listener (js "click") [] fresh_page) sample_page
        (Event (js "click") [0; 0; 1]%nat)
  ∧ (∀ k, k ≠ js "__proto__" →
          getAttribute k (snapshot [(js "id", js "b"); (js "class", js "x")])
          = getAttribute k (reverse [(js "id", js "b"); (js "class", js "x")])).
Proof.
  split; [reflexivity|].
  apply (empty_selector_forwards_every_element (λ _ _ _, Some false)
           sample_stringify fresh_page sample_page
           (Event (js "click") [0; 0; 1]%nat)
           (html_name "p") [(js "id", js "b"); (js "class", js "x")] []).
  reflexivity.
Defined.

(** C9, counterexample to the claim as stated: the pair
    [("visibilitychange", "")] is registered and an event of that type
    is delivered to the document with the document itself as its target
    (the empty path).  The document has no attribute list, the handler
    raises [TypeError] on reading its length, and nothing is
    forwarded. *)
Lemma empty_selector_document_target_not_forwarded :
  dispatch sample_matches sample_stringify
    (register_listener (js "visibilitychange") [] fresh_page) sample_page
    (Event (js "visibilitychange") [])
  = [Throws TypeError]
  ∧ forwarded sample_matches sample_stringify
      (register_listener (js "visibilitychange") [] fresh_page) sample_page
      (Event (js "visibilitychange") [])
    = [].
Proof. split; reflexivity. Qed.

(** C5, as amended.  For a pair [(t, s)] with a non-empty selector and an
    event of type [t] whose target is an element: when the target matches
    [s], the handler of the pair forwards exactly the triple
    [(t, s, snapshot)], and so does the document after
    [register_listener(t, s)]; when the target does not match [s], the
    handler forwards nothing.  The snapshot is the serialised object that
    maps every attribute name other than [__proto__] to the value the
    target holds for it (the one assigned last, should a name occur
    twice). *)
Theorem selector_decides_forwarding
    (matches : document → path → jsstring → option bool)
    (JSON_stringify : list (jsstring * jsstring) → jsstring)
    (st : registry) (doc : document) (e : event) (s : jsstring)
    (tag : element_name) (attrs : list (jsstring * jsstring)) (cs : list node) :
  node_at doc (e_target e) = Some (Element tag attrs cs) →
  s ≠ [] →
  (matches doc (e_target e) s = Some true →
   handler matches JSON_stringify (Closure (e_type e) s) doc e
   = Returns (Some (Delegated (e_type e) s (JSON_stringify (snapshot attrs))))
   ∧ Delegated (e_type e) s (JSON_stringify (snapshot attrs))
     ∈ forwarded matches JSON_stringify (register_listener (e_type e) s st) doc e)
  ∧ (matches doc (e_target e) s ≠ Some true →
     delivered (handler matches JSON_stringify (Closure (e_type e) s) doc e) = None)
  ∧ (∀ k, k ≠ js "__proto__" →
          getAttribute k (snapshot attrs) = getAttribute k (reverse attrs)).
Proof.
  intros Hn Hs.
  pose proof (handler_with_selector matches JSON_stringify
                (Closure (e_type e) s) doc e tag attrs cs Hs Hn) as Hh.
  cbn [cl_sel cl_type] in Hh.
  split_and!.
  - intros Hm. rewrite Hm in Hh. split; [exact Hh|].
    destruct (addEventListener_elem (e_type e) (length (functions st)) (listeners st))
      as (l & Hl & Ht & Hf).
    eapply (listener_forwards _ _ _ _ _ l (Closure (e_type e) s)).
    + exact Hl.
    + exact Ht.
    + rewrite Hf. cbn [functions register_listener]. by apply list_lookup_middle.
    + exact Hh.
  - intros Hm. rewrite Hh.
    by destruct (matches doc (e_target e) s) as [[]|].
  - intros k Hk. by apply snapshot_lookup.
Qed.

Lemma selector_decides_forwarding_witness :
  node_at sample_page [0; 0; 1]%nat
  = Some (Element (html_name "p") [(js "id", js "b"); (js "class", js "x")] [])
  ∧ js "p" ≠ []
  ∧ sample_matches sample_page [0; 0; 1]%nat (js "p") = Some true
  ∧ handler sample_matches sample_stringify (Closure (js "click") (js "p"))
      sample_page (Event (js "click") [0; 0; 1]%nat)
    = Returns (Some (Delegated (js "click") (js "p")
                       (sample_stringify
                          (snapshot [(js "id", js "b"); (js "class", js "x")]))))
  ∧ Delegated (js "click") (js "p")
      (sample_stringify (snapshot [(js "id", js "b"); (js "class", js "x")]))
    ∈ forwarded sample_matches sample_stringify
        (register_listener (js "click") (js "p") fresh_page) sample_page
        (Event (js "click") [0; 0; 1]%nat).
Proof.
  split; [reflexivity|]. split; [discriminate|]. split; [reflexivity|].
  destruct (selector_decides_forwarding sample_matches sample_stringify fresh_page
              sample_page (Event (js "click") [0; 0; 1]%nat) (js "p")
              (html_name "p") [(js "id", js "b"); (js "class", js "x")] []
              eq_refl ltac:(discriminate))
    as (Hmatch & _ & _).
  exact (Hmatch eq_refl).
Defined.

(** C5, counterexample to the claim as stated: the pair [("click", "")]
    is registered, the empty string is no selector and the [p] element
    of the sample page does not match it, yet a click on the element is
    forwarded. *)
Lemma empty_selector_forwards_unmatched_target :
  sample_matches sample_page [0; 0; 1]%nat [] = None
  ∧ forwarded sample_matches sample_stringify
      (register_listener (js "click") [] fresh_page) sample_page
      (Event (js "click") [0; 0; 1]%nat)
    = [Delegated (js "click") []
         (sample_stringify [(js "id", js "b"); (js "class", js "x")])].
Proof. split; reflexivity. Qed.

(** The snapshot loses the attribute named [__proto__]: the [div] of
    [proto_page] carries the attributes [__proto__] and [class] and
    matches the selector [div]; the one triple forwarded for a click on
    it has a snapshot with the [class] entry only. *)
Lemma proto_attribute_missing_from_snapshot
    (JSON_stringify : list (jsstring * jsstring) → jsstring) :
  node_at proto_page [0%nat]
  = Some (Element (html_name "div") [(js "__proto__", js "x"); (js "class", js "y")] [])
  ∧ sample_matches proto_page [0%nat] (js "div") = Some true
  ∧ forwarded sample_matches JSON_stringify
      (register_listener (js "click") (js "div") fresh_page) proto_page
      (Event (js "click") [0%nat])
    = [Delegated (js "click") (js "div") (JSON_stringify [(js "class", js "y")])].
Proof. split_and!; reflexivity. Qed.

(** ** The buffer returned by [get_inner_html] *)

Lemma store_bytes_lookup_other bs p m a :
  a < p ∨ p + Z.of_nat (length bs) ≤ a →
  store_bytes p bs m !! a = m !! a.
Proof.
  revert p m. induction bs as [|b bs IH]; intros p m H; [done|].
  simpl in *. rewrite IH by lia. apply lookup_insert_ne. lia.
Qed.

Lemma store_bytes_lookup_head b bs p m :
  store_bytes p (b :: bs) m !! p = Some b.
Proof.
  simpl. rewrite store_bytes_lookup_other by lia. apply lookup_insert_eq.
Qed.

Lemma c_string_S m ptr n :
  c_string m ptr (S n)
  = match m !! ptr with
    | None => None
    | Some b => if b =? 0 then Some [] else cons b <$> c_string m (ptr + 1) n
    end.
Proof. done. Qed.

(** Reading back a string that was stored with its terminator. *)
Lemma c_string_store_bytes bs p m :
  Forall (λ b, b ≠ 0) bs →
  c_string (store_bytes p (bs ++ [0]) m) p (S (length bs)) = Some bs.
Proof.
  intros Hbs. revert p m. induction Hbs as [|b bs Hb _ IH]; intros p m.
  - simpl. by rewrite lookup_insert_eq.
  - cbn [app length]. rewrite c_string_S, store_bytes_lookup_head.
    rewrite (proj2 (Z.eqb_neq b 0)) by done.
    cbn [store_bytes]. by rewrite IH.
Qed.

Lemma code_points_ascii s :
  Forall (λ c, 0 < c ≤ 0x7F) s → code_points s = s.
Proof.
  induction 1 as [|c s Hc _ IH]; [done|]. simpl.
  unfold is_surrogate. rewrite (proj2 (Z.leb_gt _ _)) by lia. simpl.
  by rewrite IH.
Qed.

Lemma utf8_bytes_ascii c : 0 < c ≤ 0x7F → utf8_bytes c = [c].
Proof. intros H. unfold utf8_bytes. by rewrite (proj2 (Z.leb_le _ _)) by lia. Qed.

Lemma utf8_fill_ascii s p :
  Forall (λ c, 0 < c ≤ 0x7F) s →
  utf8_fill s p (p + Z.of_nat (length s)) = s.
Proof.
  intros Hs. revert p. induction Hs as [|c s Hc _ IH]; intros p; [done|].
  cbn [utf8_fill]. rewrite utf8_bytes_ascii by done. cbn [length app].
  rewrite Z.geb_leb.
  assert ((p + Z.of_nat (S (length s)) <=? p + (Z.of_nat 1 - 1)) = false) as ->
    by (apply Z.leb_gt; lia).
  f_equal. etransitivity; [|apply (IH (p + 1))]. f_equal; lia.
Qed.

Lemma utf8_encode_ascii s :
  Forall (λ c, 0 < c ≤ 0x7F) s → utf8_encode s = s.
Proof.
  intros Hs. unfold utf8_encode. rewrite code_points_ascii by done.
  induction Hs as [|c s Hc _ IH]; [done|].
  simpl. by rewrite utf8_bytes_ascii, IH.
Qed.

(** Where the buffer is large enough: an inner HTML of ASCII characters
    comes back whole. *)
Lemma get_inner_html_ascii id doc h el n :
  getElementById doc id = Some el →
  node_at doc el = Some n →
  Forall (λ c, 0 < c ≤ 0x7F) (innerHTML n) →
  c_string (HEAPU8 (get_inner_html id doc h).2) (get_inner_html id doc h).1
           (S (length (innerHTML n)))
  = Some (utf8_encode (innerHTML n)).
Proof.
  intros Hel Hn Hs. unfold get_inner_html. rewrite Hel, Hn.
  cbn [from_option malloc fst snd HEAPU8]. unfold stringToUTF8.
  rewrite Z.gtb_ltb, (proj2 (Z.ltb_lt _ _)) by lia.
  rewrite code_points_ascii by done.
  replace (brk h + (Z.of_nat (length (innerHTML n)) + 1) - 1)
    with (brk h + Z.of_nat (length (innerHTML n))) by lia.
  rewrite utf8_fill_ascii, utf8_encode_ascii by done.
  apply c_string_store_bytes.
  eapply Forall_impl; [exact Hs|]. simpl. intros; lia.
Qed.

(** C10.  For an identifier that names no element, on a heap whose break
    is positive and above every block, [get_inner_html] returns a
    non-null pointer to a block of one byte that it has just allocated
    outside every earlier block; the byte is the terminator, so the
    buffer holds the empty string, and no other byte of the heap is
    written. *)
Theorem get_inner_html_missing_element
    (id : jsstring) (doc : document) (h : heap) :
  getElementById doc id = None →
  heap_wf h →
  ∃ buf h', get_inner_html id doc h = (buf, h')
    ∧ buf ≠ 0
    ∧ blocks h' = (buf, 1) :: blocks h
    ∧ Forall (λ b, b.1 + b.2 ≤ buf) (blocks h)
    ∧ c_string (HEAPU8 h') buf 1 = Some []
    ∧ ∀ a, a ≠ buf → HEAPU8 h' !! a = HEAPU8 h !! a.
Proof.
  intros Hnone [Hbrk Hblocks].
  exists (brk h), (Heap (<[brk h := 0]> (HEAPU8 h)) ((brk h, 1) :: blocks h) (brk h + 1)).
  split.
  { unfold get_inner_html. by rewrite Hnone. }
  cbn [HEAPU8 blocks]. split_and!.
  - lia.
  - done.
  - done.
  - rewrite c_string_S. by rewrite lookup_insert_eq.
  - intros a Ha. by apply lookup_insert_ne.
Qed.

Lemma get_inner_html_missing_element_witness :
  getElementById sample_page (js "zz") = None
  ∧ heap_wf empty_heap
  ∧ ∃ buf h', get_inner_html (js "zz") sample_page empty_heap = (buf, h')
    ∧ buf ≠ 0
    ∧ blocks h' = (buf, 1) :: blocks empty_heap
    ∧ Forall (λ b, b.1 + b.2 ≤ buf) (blocks empty_heap)
    ∧ c_string (HEAPU8 h') buf 1 = Some []
    ∧ ∀ a, a ≠ buf → HEAPU8 h' !! a = HEAPU8 empty_heap !! a.
Proof.
  split; [reflexivity|].
  split; [split; [reflexivity|constructor]|].
  apply (get_inner_html_missing_element (js "zz") sample_page empty_heap).
  - reflexivity.
  - split; [reflexivity|constructor].
Defined.

(** C6, the code at the failing input: the inner HTML of [div#a] is the
    one code unit [U+00E9], whose UTF-8 encoding has two bytes; the
    buffer is allocated with two bytes, [stringToUTF8] has no room for
    the character next to the terminator, and the returned buffer holds
    the empty string. *)
Theorem get_inner_html_truncates_non_ascii :
  getElementById sample_page (js "a") = Some [0; 0; 0]%nat
  ∧ (innerHTML <$> node_at sample_page [0; 0; 0]%nat) = Some [0xE9]
  ∧ utf8_encode [0xE9] = [0xC3; 0xA9]
  ∧ blocks (get_inner_html (js "a") sample_page empty_heap).2
    = [((get_inner_html (js "a") sample_page empty_heap).1, 2)]
  ∧ c_string (HEAPU8 (get_inner_html (js "a") sample_page empty_heap).2)
             (get_inner_html (js "a") sample_page empty_heap).1 2
    = Some [].
Proof. split_and!; by vm_compute. Qed.


(** * Further properties of the externs *)

(** ** Element lookup after a mutation *)

Lemma first_hit_elim {A} (f : A → option (list nat)) ns i q :
  first_hit f ns i = Some q →
  ∃ k c p, q = (i + k)%nat :: p ∧ ns !! k = Some c ∧ f c = Some p
           ∧ ∀ k' c', (k' < k)%nat → ns !! k' = Some c' → f c' = None.
Proof.
  revert i. induction ns as [|n ns IH]; intros i; simpl; [done|].
  destruct (f n) as [p|] eqn:Hf.
  - intros [= <-]. exists 0%nat, n, p. rewrite Nat.add_0_r.
    split_and!; [done|done|done|]. intros; lia.
  - intros H. destruct (IH _ H) as (k & c & p & -> & Hk & Hc & Hbefore).
    exists (S k), c, p. split_and!; [f_equal; lia|done|done|].
    intros [|k'] c' Hlt Hc'; simpl in Hc'.
    + by simplify_eq.
    + eapply Hbefore; [|done]. lia.
Qed.

Lemma first_hit_intro {A} (f : A → option (list nat)) ns i k c p :
  ns !! k = Some c → f c = Some p →
  (∀ k' c', (k' < k)%nat → ns !! k' = Some c' → f c' = None) →
  first_hit f ns i = Some ((i + k)%nat :: p).
Proof.
  revert i k. induction ns as [|n ns IH]; intros i k Hk Hc Hbefore; [done|].
  destruct k as [|k]; simpl in *.
  - simplify_eq. rewrite Hc. by rewrite Nat.add_0_r.
  - rewrite (Hbefore 0%nat n) by (done || lia).
    rewrite (IH (S i) k) by (done || (intros k' c' ? ?; apply (Hbefore (S k') c'); [lia|done])).
    f_equal. f_equal. lia.
Qed.

Lemma find_id_Some_element id n q :
  find_id id n = Some q → ∃ t a cs, n = Element t a cs.
Proof. destruct n; [eauto|done|done]. Qed.

(** A change below the found element, or of attributes that leaves every
    ID alone, does not move the search. *)
Lemma search_after_update_children id f p ns :
  first_hit (find_id id) ns 0 = Some p →
  first_hit (find_id id) (update_children f p ns) 0 = Some p.
Proof.
  revert ns. induction p as [|k q IH]; intros ns H.
  - by apply first_hit_elim in H as (? & ? & ? & ? & _).
  - apply first_hit_elim in H as (k0 & c & q0 & [= -> ->] & Hk & Hc & Hbefore).
    destruct (find_id_Some_element _ _ _ Hc) as (t & a & cs & ->).
    cbn [update_children]. rewrite Hk.
    apply (first_hit_intro _ _ 0%nat k0 (Element t a (update_children f q0 cs))).
    + apply list_lookup_insert_eq. by eapply lookup_lt_Some.
    + simpl in *. destruct (has_id id a).
      * by simplify_eq.
      * by apply IH.
    + intros k' c' Hlt Hc'. rewrite list_lookup_insert_ne in Hc' by lia.
      by eapply Hbefore.
Qed.

Lemma getElementById_update_children id f el doc :
  getElementById doc id = Some el →
  getElementById (update_children f el doc) id = Some el.
Proof. apply search_after_update_children. Qed.

Lemma search_after_update_attributes id g p ns :
  (∀ a, has_id id (g a) = has_id id a) →
  first_hit (find_id id) ns 0 = Some p →
  first_hit (find_id id) (update_attributes g p ns) 0 = Some p.
Proof.
  intros Hg. revert ns. induction p as [|k q IH]; intros ns H.
  - by apply first_hit_elim in H as (? & ? & ? & ? & _).
  - apply first_hit_elim in H as (k0 & c & q0 & [= -> ->] & Hk & Hc & Hbefore).
    destruct (find_id_Some_element _ _ _ Hc) as (t & a & cs & ->).
    cbn [update_attributes]. rewrite Hk.
    destruct q0 as [|j q0].
    + apply (first_hit_intro _ _ 0%nat k0 (Element t (g a) cs)).
      * apply list_lookup_insert_eq. by eapply lookup_lt_Some.
      * simpl in *. rewrite Hg. destruct (has_id id a); [done|].
        by apply first_hit_elim in Hc as (? & ? & ? & ? & _).
      * intros k' c' Hlt Hc'. rewrite list_lookup_insert_ne in Hc' by lia.
        by eapply Hbefore.
    + apply (first_hit_intro _ _ 0%nat k0
               (Element t a (update_attributes g (j :: q0) cs))).
      * apply list_lookup_insert_eq. by eapply lookup_lt_Some.
      * simpl in Hc. cbn [find_id]. destruct (has_id id a); [done|].
        by apply IH.
      * intros k' c' Hlt Hc'. rewrite list_lookup_insert_ne in Hc' by lia.
        by eapply Hbefore.
Qed.

(** ** What an update changes and what it keeps *)

Lemma update_children_replaced f p doc cs :
  childNodes_at doc p = Some cs →
  children_replaced doc (update_children f p doc) p (f cs).
Proof.
  intros Hcs. split_and!.
  - by apply childNodes_at_update.
  - intros r Hr. by apply node_at_update_ancestor.
  - intros r Hr. by apply node_at_update_unrelated.
Qed.

Lemma update_children_ext f g p doc cs :
  childNodes_at doc p = Some cs → f cs = g cs →
  update_children f p doc = update_children g p doc.
Proof.
  revert doc. induction p as [|i p IH]; intros doc; simpl.
  - by intros [= ->].
  - destruct (doc !! i) as [[t a cs0| |]|]; try done.
    intros Hcs Hfg. by rewrite (IH cs0).
Qed.

Lemma update_children_compose f g p doc :
  update_children g p (update_children f p doc)
  = update_children (λ cs, g (f cs)) p doc.
Proof.
  revert doc. induction p as [|i p IH]; intros doc; simpl; [done|].
  destruct (doc !! i) as [[t a cs| |]|] eqn:Hi; rewrite ?Hi; try done.
  rewrite list_lookup_insert_eq by by eapply lookup_lt_Some.
  by rewrite list_insert_insert_eq, IH.
Qed.

Lemma node_at_update_attributes g p doc t a cs :
  node_at doc p = Some (Element t a cs) →
  node_at (update_attributes g p doc) p = Some (Element t (g a) cs).
Proof.
  revert doc. induction p as [|i p IH]; intros doc; [done|].
  rewrite !node_at_cons. cbn [update_attributes].
  destruct (doc !! i) as [[t0 a0 cs0| |]|] eqn:Hi;
    try (by destruct p).
  destruct p as [|j p].
  - intros [= -> -> ->].
    by rewrite list_lookup_insert_eq by by eapply lookup_lt_Some.
  - rewrite list_lookup_insert_eq by by eapply lookup_lt_Some.
    cbn [mbind option_bind]. rewrite !descend_cons. by apply IH.
Qed.

Lemma node_at_update_attributes_other g p doc r :
  ¬ r `prefix_of` p →
  node_at (update_attributes g p doc) r = node_at doc r.
Proof.
  revert doc r. induction p as [|i p IH]; intros doc r Hr; [done|].
  destruct r as [|j r]; [destruct Hr; apply prefix_nil|].
  rewrite !node_at_cons. cbn [update_attributes].
  destruct (doc !! i) as [[t a cs| |]|] eqn:Hi; try done.
  destruct (decide (j = i)) as [->|Hne].
  - assert (¬ r `prefix_of` p) as Hr' by (intros H; apply Hr; by apply prefix_cons).
    destruct r as [|k r]; [destruct Hr'; apply prefix_nil|].
    rewrite Hi. destruct p as [|i' p].
    + rewrite list_lookup_insert_eq by by eapply lookup_lt_Some. done.
    + rewrite list_lookup_insert_eq by by eapply lookup_lt_Some.
      cbn [mbind option_bind]. rewrite !descend_cons. by apply IH.
  - destruct p; by rewrite list_lookup_insert_ne.
Qed.

Lemma node_at_update_attributes_ancestor g p doc r :
  r `prefix_of` p → r ≠ p →
  shallow <$> node_at (update_attributes g p doc) r = shallow <$> node_at doc r.
Proof.
  revert doc r. induction p as [|i p IH]; intros doc r Hr Hne.
  - by apply prefix_nil_inv in Hr.
  - destruct r as [|j r]; [done|].
    apply prefix_cons_inv_1 in Hr as Hji. subst j.
    apply prefix_cons_inv_2 in Hr.
    assert (r ≠ p) as Hne' by congruence.
    rewrite !node_at_cons. cbn [update_attributes].
    destruct (doc !! i) as [[t a cs| |]|] eqn:Hi; try by rewrite Hi.
    destruct p as [|i' p].
    + by apply prefix_nil_inv in Hr.
    + rewrite list_lookup_insert_eq by by eapply lookup_lt_Some.
      cbn [mbind option_bind]. destruct r as [|k r]; [done|].
      rewrite !descend_cons. by apply IH.
Qed.

Lemma update_attributes_replaced g el doc t a cs :
  node_at doc el = Some (Element t a cs) →
  attributes_replaced doc (update_attributes g el doc) el (g a).
Proof.
  intros Hn. split_and!.
  - exists t, a, cs. split; [done|]. by apply node_at_update_attributes.
  - intros r Hr Hne. by apply node_at_update_attributes_ancestor.
  - intros r Hr. by apply node_at_update_attributes_other.
Qed.

Lemma update_attributes_compose f g p doc :
  update_attributes g p (update_attributes f p doc)
  = update_attributes (λ a, g (f a)) p doc.
Proof.
  revert doc. induction p as [|i p IH]; intros doc; [done|].
  cbn [update_attributes].
  destruct (doc !! i) as [[t a cs| |]|] eqn:Hi; rewrite ?Hi; try done.
  destruct p as [|j p].
  - rewrite list_lookup_insert_eq by by eapply lookup_lt_Some.
    by rewrite list_insert_insert_eq.
  - rewrite list_lookup_insert_eq by by eapply lookup_lt_Some.
    by rewrite list_insert_insert_eq, IH.
Qed.

Lemma update_attributes_ext f g p doc t a cs :
  node_at doc p = Some (Element t a cs) → f a = g a →
  update_attributes f p doc = update_attributes g p doc.
Proof.
  revert doc. induction p as [|i p IH]; intros doc; [done|].
  rewrite node_at_cons. cbn [update_attributes].
  destruct (doc !! i) as [[t0 a0 cs0| |]|] eqn:Hi; simpl; try done.
  destruct p as [|j p].
  - intros [= -> -> ->] Hfg. by rewrite Hfg.
  - rewrite descend_cons. intros Hn Hfg. by rewrite (IH cs0).
Qed.

Lemma update_attributes_fixed f p doc t a cs :
  node_at doc p = Some (Element t a cs) → f a = a →
  update_attributes f p doc = doc.
Proof.
  revert doc. induction p as [|i p IH]; intros doc; [done|].
  rewrite node_at_cons. cbn [update_attributes].
  destruct (doc !! i) as [[t0 a0 cs0| |]|] eqn:Hi; simpl; try done.
  destruct p as [|j p].
  - intros [= -> -> ->] Hf. rewrite Hf. by apply list_insert_id.
  - rewrite descend_cons. intros Hn Hf. rewrite (IH cs0) by done.
    by apply list_insert_id.
Qed.

(** ** Attribute externs *)

Lemma getAttribute_set_attribute_value k name v a :
  getAttribute k (set_attribute_value name v a)
  = if decide (name = k) then Some v else getAttribute k a.
Proof.
  induction a as [|[k1 v1] a IH]; simpl; [done|].
  destruct (decide (k1 = name)) as [->|Hne]; simpl.
  - by destruct (decide (name = k)).
  - rewrite IH. destruct (decide (k1 = k)) as [->|]; [|done].
    by rewrite decide_False.
Qed.

Lemma set_attribute_value_twice name v1 v2 a :
  set_attribute_value name v2 (set_attribute_value name v1 a)
  = set_attribute_value name v2 a.
Proof.
  induction a as [|[k1 w] a IH]; simpl.
  - by rewrite decide_True.
  - destruct (decide (k1 = name)) as [->|Hne]; simpl.
    + by rewrite decide_True.
    + by rewrite decide_False, IH.
Qed.

Lemma getAttribute_remove_other k name a :
  k ≠ name →
  getAttribute k (remove_attribute_named name a) = getAttribute k a.
Proof.
  intros Hk. induction a as [|[k1 v1] a IH]; simpl; [done|].
  destruct (decide (k1 = name)) as [->|Hne]; simpl.
  - by rewrite decide_False.
  - by rewrite IH.
Qed.

Lemma getAttribute_None_not_in k (a : list (jsstring * jsstring)) :
  getAttribute k a = None ↔ k ∉ a.*1.
Proof.
  induction a as [|[k1 v1] a IH]; simpl.
  - split; [intros _; apply not_elem_of_nil|done].
  - rewrite not_elem_of_cons. destruct (decide (k1 = k)) as [->|Hne].
    + split; [done|]. by intros [? _].
    + rewrite IH. split; [intros ?; split; [congruence|done]|by intros [_ ?]].
Qed.

Lemma getAttribute_remove_same name a :
  NoDup a.*1 → getAttribute name (remove_attribute_named name a) = None.
Proof.
  induction a as [|[k1 v1] a IH]; simpl; [done|].
  rewrite NoDup_cons. intros [Hk1 Hnd].
  destruct (decide (k1 = name)) as [->|Hne]; simpl.
  - by apply getAttribute_None_not_in.
  - rewrite decide_False by done. by apply IH.
Qed.

Lemma remove_attribute_named_absent name a :
  getAttribute name a = None → remove_attribute_named name a = a.
Proof.
  induction a as [|[k1 v1] a IH]; simpl; [done|].
  destruct (decide (k1 = name)); [done|]. intros H. by rewrite IH.
Qed.

Lemma remove_set_attribute_absent name v a :
  getAttribute name a = None →
  remove_attribute_named name (set_attribute_value name v a) = a.
Proof.
  induction a as [|[k1 v1] a IH]; simpl.
  - by rewrite decide_True.
  - destruct (decide (k1 = name)); [done|]. intros H. simpl.
    by rewrite decide_False, IH.
Qed.

Lemma has_id_same_id_attribute id a a' :
  getAttribute (js "id") a' = getAttribute (js "id") a →
  has_id id a' = has_id id a.
Proof. unfold has_id. by intros ->. Qed.

Lemma getElementById_set_attribute id name v el doc :
  name ≠ js "id" →
  getElementById doc id = Some el →
  getElementById (update_attributes (set_attribute_value name v) el doc) id = Some el.
Proof.
  intros Hname. apply search_after_update_attributes. intros a.
  apply has_id_same_id_attribute. rewrite getAttribute_set_attribute_value.
  by rewrite decide_False.
Qed.

Lemma attribute_name_not_id t key :
  ascii_lowercase key ≠ js "id" → attribute_name t key ≠ js "id".
Proof.
  intros Hkey. unfold attribute_name.
  destruct (namespaceURI t); [done| |]; by intros ->.
Qed.

Lemma set_attr_live valid_attribute_name doc id key val el t a cs :
  getElementById doc id = Some el →
  node_at doc el = Some (Element t a cs) →
  valid_attribute_name key = true →
  set_attr valid_attribute_name id key val doc
  = Returns (update_attributes
               (set_attribute_value (attribute_name t key) val) el doc).
Proof.
  intros Hel Hn Hvalid. unfold set_attr, setAttribute.
  by rewrite Hel, Hvalid, Hn.
Qed.

Lemma remove_attr_live doc id key el t a cs :
  getElementById doc id = Some el →
  node_at doc el = Some (Element t a cs) →
  remove_attr id key doc
  = Returns (update_attributes
               (remove_attribute_named (attribute_name t key)) el doc).
Proof.
  intros Hel Hn. unfold remove_attr, removeAttribute. by rewrite Hel, Hn.
Qed.

(** X1.  [set_attr] on a live target: a name the host rejects raises
    [InvalidCharacterError]; otherwise the call returns, the target keeps
    its name and children and no other node of the document changes.  A
    target in the HTML namespace then reports [val] under the lower-cased
    name, a target in the SVG or MathML namespace under the name as it
    was given, and either reports what it reported before under every
    other name.  Unless that name is [id], the identifier keeps naming
    the target. *)
Theorem set_attr_sets_attribute
    (valid_attribute_name : jsstring → bool)
    (doc : document) (id key val : jsstring) (el : path) :
  getElementById doc id = Some el →
  (valid_attribute_name key = false →
   set_attr valid_attribute_name id key val doc = Throws InvalidCharacterError)
  ∧ (valid_attribute_name key = true →
     ∃ t a cs d a',
       node_at doc el = Some (Element t a cs)
       ∧ set_attr valid_attribute_name id key val doc = Returns d
       ∧ attributes_replaced doc d el a'
       ∧ (namespaceURI t = HTML →
          getAttribute (ascii_lowercase key) a' = Some val
          ∧ ∀ k, k ≠ ascii_lowercase key → getAttribute k a' = getAttribute k a)
       ∧ (namespaceURI t ≠ HTML →
          getAttribute key a' = Some val
          ∧ ∀ k, k ≠ key → getAttribute k a' = getAttribute k a)
       ∧ (attribute_name t key ≠ js "id" → getElementById d id = Some el)).
Proof.
  intros Hel. split.
  - intros Hinvalid. unfold set_attr, setAttribute. by rewrite Hel, Hinvalid.
  - intros Hvalid.
    destruct (getElementById_Some _ _ _ Hel) as (t & a & cs & Hn & _).
    exists t, a, cs. eexists. eexists.
    split; [done|]. split; [by apply (set_attr_live _ _ _ _ _ el t a cs)|].
    split; [by apply (update_attributes_replaced _ _ _ t a cs)|].
    split_and!.
    + intros Hns. unfold attribute_name. rewrite Hns. split.
      * rewrite getAttribute_set_attribute_value. by rewrite decide_True.
      * intros k Hk. rewrite getAttribute_set_attribute_value.
        by rewrite decide_False.
    + intros Hns. unfold attribute_name.
      destruct (namespaceURI t); [done| |]; (split;
        [rewrite getAttribute_set_attribute_value; by rewrite decide_True
        |intros k Hk; rewrite getAttribute_set_attribute_value;
         by rewrite decide_False]).
    + intros Hname. by apply getElementById_set_attribute.
Qed.

Lemma set_attr_sets_attribute_witness :
  getElementById svg_page (js "s") = Some [0; 0; 0]%nat
  ∧ sample_valid_name (js "viewBox") = true
  ∧ ∃ t a cs d a',
      node_at svg_page [0; 0; 0]%nat = Some (Element t a cs)
      ∧ set_attr sample_valid_name (js "s") (js "viewBox") (js "0 0 2 2") svg_page
        = Returns d
      ∧ attributes_replaced svg_page d [0; 0; 0]%nat a'
      ∧ (namespaceURI t = HTML →
         getAttribute (ascii_lowercase (js "viewBox")) a' = Some (js "0 0 2 2")
         ∧ ∀ k, k ≠ ascii_lowercase (js "viewBox") →
                getAttribute k a' = getAttribute k a)
      ∧ (namespaceURI t ≠ HTML →
         getAttribute (js "viewBox") a' = Some (js "0 0 2 2")
         ∧ ∀ k, k ≠ js "viewBox" → getAttribute k a' = getAttribute k a)
      ∧ (attribute_name t (js "viewBox") ≠ js "id" →
         getElementById d (js "s") = Some [0; 0; 0]%nat).
Proof.
  split; [reflexivity|]. split; [reflexivity|].
  exact (proj2 (set_attr_sets_attribute sample_valid_name svg_page (js "s")
                  (js "viewBox") (js "0 0 2 2") [0; 0; 0]%nat eq_refl) eq_refl).
Defined.

(** X2.  The last [set_attr] wins: for a valid name other than [id],
    setting the attribute of a live target twice leaves the document
    that setting it to the second value alone leaves. *)
Theorem set_attr_last_write_wins
    (valid_attribute_name : jsstring → bool)
    (doc : document) (id key v1 v2 : jsstring) (el : path) :
  getElementById doc id = Some el →
  valid_attribute_name key = true →
  ascii_lowercase key ≠ js "id" →
  ∃ d1, set_attr valid_attribute_name id key v1 doc = Returns d1
        ∧ set_attr valid_attribute_name id key v2 d1
          = set_attr valid_attribute_name id key v2 doc.
Proof.
  intros Hel Hvalid Hkey.
  destruct (getElementById_Some _ _ _ Hel) as (t & a & cs & Hn & _).
  pose proof (attribute_name_not_id t key Hkey) as Hname.
  eexists. split; [by apply (set_attr_live _ _ _ _ _ el t a cs)|].
  rewrite (set_attr_live _ _ _ _ _ el t a cs Hel Hn Hvalid).
  rewrite (set_attr_live _ _ _ _ _ el t
             (set_attribute_value (attribute_name t key) v1 a) cs);
    [|by apply getElementById_set_attribute
     |by apply node_at_update_attributes|done].
  f_equal. rewrite update_attributes_compose.
  apply (update_attributes_ext _ _ _ _ t a cs Hn).
  apply set_attribute_value_twice.
Qed.

Lemma set_attr_last_write_wins_witness :
  getElementById sample_page (js "b") = Some [0; 0; 1]%nat
  ∧ sample_valid_name (js "class") = true
  ∧ ascii_lowercase (js "class") ≠ js "id"
  ∧ ∃ d1, set_attr sample_valid_name (js "b") (js "class") (js "y") sample_page
          = Returns d1
          ∧ set_attr sample_valid_name (js "b") (js "class") (js "z") d1
            = set_attr sample_valid_name (js "b") (js "class") (js "z") sample_page.
Proof.
  split; [reflexivity|]. split; [reflexivity|]. split; [discriminate|].
  apply (set_attr_last_write_wins sample_valid_name sample_page (js "b")
           (js "class") (js "y") (js "z") [0; 0; 1]%nat).
  - reflexivity.
  - reflexivity.
  - discriminate.
Defined.

(** X3.  [remove_attr] undoes [set_attr]: when a live target has no
    attribute of the name the two calls use for it (the valid [key],
    lower-cased on a target in the HTML namespace and as given on a
    target in the SVG or MathML namespace, and other than [id]), setting
    it and then removing it gives the document back as it was. *)
Theorem set_attr_then_remove_attr_restores
    (valid_attribute_name : jsstring → bool)
    (doc : document) (id key val : jsstring) (el : path)
    (t : element_name) (a : list (jsstring * jsstring)) (cs : list node) :
  getElementById doc id = Some el →
  node_at doc el = Some (Element t a cs) →
  valid_attribute_name key = true →
  attribute_name t key ≠ js "id" →
  getAttribute (attribute_name t key) a = None →
  ∃ d1, set_attr valid_attribute_name id key val doc = Returns d1
        ∧ remove_attr id key d1 = Returns doc.
Proof.
  intros Hel Hn Hvalid Hkey Habsent.
  eexists. split; [by apply (set_attr_live _ _ _ _ _ el t a cs)|].
  rewrite (remove_attr_live _ _ _ el t
             (set_attribute_value (attribute_name t key) val a) cs);
    [|by apply getElementById_set_attribute
     |by apply node_at_update_attributes].
  f_equal. rewrite update_attributes_compose.
  apply (update_attributes_fixed _ _ _ t a cs Hn).
  by apply remove_set_attribute_absent.
Qed.

Lemma set_attr_then_remove_attr_restores_witness :
  getElementById svg_page (js "s") = Some [0; 0; 0]%nat
  ∧ node_at svg_page [0; 0; 0]%nat
    = Some (Element (ElementName SVG (js "svg"))
              [(js "id", js "s"); (js "viewBox", js "0 0 1 1")] [])
  ∧ sample_valid_name (js "viewbox") = true
  ∧ attribute_name (ElementName SVG (js "svg")) (js "viewbox") ≠ js "id"
  ∧ getAttribute (attribute_name (ElementName SVG (js "svg")) (js "viewbox"))
      [(js "id", js "s"); (js "viewBox", js "0 0 1 1")] = None
  ∧ ∃ d1, set_attr sample_valid_name (js "s") (js "viewbox") (js "y") svg_page
          = Returns d1
          ∧ remove_attr (js "s") (js "viewbox") d1 = Returns svg_page.
Proof.
  split; [reflexivity|]. split; [reflexivity|]. split; [reflexivity|].
  split; [discriminate|]. split; [reflexivity|].
  apply (set_attr_then_remove_attr_restores sample_valid_name svg_page (js "s")
           (js "viewbox") (js "y") [0; 0; 0]%nat
           (ElementName SVG (js "svg"))
           [(js "id", js "s"); (js "viewBox", js "0 0 1 1")] []).
  - reflexivity.
  - reflexivity.
  - reflexivity.
  - discriminate.
  - reflexivity.
Defined.

(** X4.  [remove_attr] on a live target whose attribute names are
    distinct: the call returns, the target no longer has an attribute of
    the name the call uses for it ([key] lower-cased on a target in the
    HTML namespace, [key] as given on a target in the SVG or MathML
    namespace) and reports what it reported before under every other
    name, and nothing else in the document changes; when the target had
    no attribute of that name the document is returned as it was.  So on
    an HTML target an attribute is removed under any letter case of its
    name, and on an SVG or MathML target a name in another letter case
    removes nothing. *)
Theorem remove_attr_removes_attribute
    (doc : document) (id key : jsstring) (el : path)
    (t : element_name) (a : list (jsstring * jsstring)) (cs : list node) :
  getElementById doc id = Some el →
  node_at doc el = Some (Element t a cs) →
  NoDup a.*1 →
  (∃ d a', remove_attr id key doc = Returns d
           ∧ attributes_replaced doc d el a'
           ∧ (namespaceURI t = HTML →
              getAttribute (ascii_lowercase key) a' = None
              ∧ ∀ k, k ≠ ascii_lowercase key → getAttribute k a' = getAttribute k a)
           ∧ (namespaceURI t ≠ HTML →
              getAttribute key a' = None
              ∧ ∀ k, k ≠ key → getAttribute k a' = getAttribute k a))
  ∧ (namespaceURI t = HTML → getAttribute (ascii_lowercase key) a = None →
     remove_attr id key doc = Returns doc)
  ∧ (namespaceURI t ≠ HTML → getAttribute key a = None →
     remove_attr id key doc = Returns doc).
Proof.
  intros Hel Hn Hnd. rewrite (remove_attr_live _ _ _ el t a cs Hel Hn).
  assert (∀ name, getAttribute name a = None →
            update_attributes (remove_attribute_named name) el doc = doc) as Hfix.
  { intros name Habsent. apply (update_attributes_fixed _ _ _ t a cs Hn).
    by apply remove_attribute_named_absent. }
  split_and!.
  - eexists. eexists. split; [done|].
    split; [by apply (update_attributes_replaced _ _ _ t a cs)|].
    unfold attribute_name. split.
    + intros Hns. rewrite Hns. split.
      * by apply getAttribute_remove_same.
      * intros k Hk. by apply getAttribute_remove_other.
    + intros Hns. destruct (namespaceURI t); [done| |]; (split;
        [by apply getAttribute_remove_same
        |intros k Hk; by apply getAttribute_remove_other]).
  - intros Hns Habsent. unfold attribute_name. rewrite Hns. by rewrite Hfix.
  - intros Hns Habsent. unfold attribute_name.
    destruct (namespaceURI t); [done| |]; by rewrite Hfix.
Qed.

Lemma remove_attr_removes_attribute_witness :
  getElementById svg_page (js "s") = Some [0; 0; 0]%nat
  ∧ node_at svg_page [0; 0; 0]%nat
    = Some (Element (ElementName SVG (js "svg"))
              [(js "id", js "s"); (js "viewBox", js "0 0 1 1")] [])
  ∧ NoDup [(js "id", js "s"); (js "viewBox", js "0 0 1 1")].*1
  ∧ (∃ d a', remove_attr (js "s") (js "viewBox") svg_page = Returns d
             ∧ attributes_replaced svg_page d [0; 0; 0]%nat a'
             ∧ getAttribute (js "viewBox") a' = None
             ∧ ∀ k, k ≠ js "viewBox" →
                    getAttribute k a'
                    = getAttribute k [(js "id", js "s"); (js "viewBox", js "0 0 1 1")])
  ∧ remove_attr (js "s") (js "viewbox") svg_page = Returns svg_page.
Proof.
  split; [reflexivity|]. split; [reflexivity|].
  split; [apply (bool_decide_unpack _); vm_compute; exact I|].
  split.
  - destruct (remove_attr_removes_attribute svg_page (js "s") (js "viewBox")
                [0; 0; 0]%nat (ElementName SVG (js "svg"))
                [(js "id", js "s"); (js "viewBox", js "0 0 1 1")] []
                eq_refl eq_refl
                ltac:(apply (bool_decide_unpack _); vm_compute; exact I))
      as [(d & a' & Hd & Hrep & _ & Hsvg) _].
    exists d, a'. split; [exact Hd|]. split; [exact Hrep|].
    apply Hsvg. discriminate.
  - refine (proj2 (proj2 (remove_attr_removes_attribute svg_page (js "s")
                            (js "viewbox") [0; 0; 0]%nat
                            (ElementName SVG (js "svg"))
                            [(js "id", js "s"); (js "viewBox", js "0 0 1 1")] []
                            eq_refl eq_refl _)) _ eq_refl).
    + apply (bool_decide_unpack _); vm_compute; exact I.
    + discriminate.
Defined.

(** ** HTML setters on a live target *)


Lemma childNodes_at_node doc q sib :
  q ≠ [] → childNodes_at doc q = Some sib →
  ∃ t a, node_at doc q = Some (Element t a sib).
Proof.
  revert doc. induction q as [|i q IH]; intros doc Hq; [done|].
  rewrite node_at_cons. simpl.
  destruct (doc !! i) as [[t a cs| |]|]; try done.
  destruct q as [|j q].
  - intros [= ->]. by exists t, a.
  - intros H. simpl. rewrite <- node_at_cons. by apply IH.
Qed.



(** X6.  [set_outer_html] on a live target: on the root element of the
    document it raises [NoModificationAllowedError]; on any other element
    it puts the nodes that the HTML parses to, with the parent as
    context, in the place of the target among its siblings (an HTML that
    parses to no node takes the target out) and changes nothing outside
    the parent. *)
Theorem set_outer_html_replaces_element
    (parse_fragment : element_name → jsstring → list node)
    (doc : document) (id html : jsstring) (el : path) :
  getElementById doc id = Some el →
  (parentNode el = [] →
   set_outer_html parse_fragment id html doc = Throws NoModificationAllowedError)
  ∧ (parentNode el ≠ [] →
     ∃ pt pa sib d,
       node_at doc (parentNode el) = Some (Element pt pa sib)
       ∧ set_outer_html parse_fragment id html doc = Returns d
       ∧ children_replaced doc d (parentNode el)
           (take (sibling_index el) sib ++ parse_fragment pt html
            ++ drop (S (sibling_index el)) sib)).
Proof.
  intros Hel. unfold set_outer_html, outerHTML_set. rewrite Hel. split.
  - by intros ->.
  - intros Hparent.
    destruct (getElementById_Some _ _ _ Hel) as (t & a & cs & Hn & _).
    destruct (node_at_siblings doc el _ (getElementById_nonempty _ _ _ Hel) Hn)
      as (sib & Hsib & Hi).
    destruct (childNodes_at_node doc _ sib Hparent Hsib) as (pt & pa & Hp).
    exists pt, pa, sib.
    destruct (parentNode el) as [|j q] eqn:Hq; [done|].
    eexists. split; [done|].
    rewrite Hp. split; [reflexivity|].
    by apply (update_children_replaced
                (λ cs0, take (sibling_index el) cs0 ++ parse_fragment pt html
                        ++ drop (S (sibling_index el)) cs0)).
Qed.

Lemma set_outer_html_replaces_element_witness :
  getElementById sample_page (js "a") = Some [0; 0; 0]%nat
  ∧ parentNode [0; 0; 0]%nat ≠ []
  ∧ ∃ pt pa sib d,
      node_at sample_page (parentNode [0; 0; 0]%nat) = Some (Element pt pa sib)
      ∧ set_outer_html sample_parse (js "a") (js "<p></p><b></b>") sample_page
        = Returns d
      ∧ children_replaced sample_page d (parentNode [0; 0; 0]%nat)
          (take (sibling_index [0; 0; 0]%nat) sib
           ++ sample_parse pt (js "<p></p><b></b>")
           ++ drop (S (sibling_index [0; 0; 0]%nat)) sib).
Proof.
  split; [reflexivity|]. split; [discriminate|].
  apply (set_outer_html_replaces_element sample_parse sample_page (js "a")
           (js "<p></p><b></b>") [0; 0; 0]%nat eq_refl).
  discriminate.
Defined.

(** ** Insertions compose *)

Lemma append_live parse_fragment doc id html el n rest :
  getElementById doc id = Some el →
  parse_fragment (html_name "div") html = n :: rest →
  append parse_fragment id html doc
  = Returns (update_children (λ cs, cs ++ [n]) el doc).
Proof.
  intros Hel Hp. unfold append, appendChild.
  rewrite Hel, (cont_firstChild_cons _ _ _ _ Hp).
  by rewrite insertBefore_Returns by (left; by eapply getElementById_nonempty).
Qed.

Lemma prepend_live parse_fragment doc id html el n rest :
  getElementById doc id = Some el →
  parse_fragment (html_name "div") html = n :: rest →
  prepend parse_fragment id html doc
  = Returns (update_children (λ cs, n :: cs) el doc).
Proof.
  intros Hel Hp. unfold prepend.
  rewrite Hel, (cont_firstChild_cons _ _ _ _ Hp).
  rewrite insertBefore_Returns by (left; by eapply getElementById_nonempty).
  f_equal.
  destruct (getElementById_Some _ _ _ Hel) as (t & a & cs & Hn & _).
  apply node_at_children in Hn. rewrite Hn.
  apply (update_children_ext _ _ _ _ cs Hn). by destruct cs.
Qed.

(** X7.  Insertions into one target accumulate in call order: after two
    [append] calls the first nodes of the two HTML strings are the last
    two children of the target, in call order, and after two [prepend]
    calls they are its first two children, the later one first.  The
    identifier keeps naming the target in between. *)
Theorem insertions_accumulate
    (parse_fragment : element_name → jsstring → list node)
    (doc : document) (id h1 h2 : jsstring) (el : path)
    (n1 n2 : node) (r1 r2 cs : list node) :
  getElementById doc id = Some el →
  childNodes_at doc el = Some cs →
  parse_fragment (html_name "div") h1 = n1 :: r1 →
  parse_fragment (html_name "div") h2 = n2 :: r2 →
  (∃ d1 d2, append parse_fragment id h1 doc = Returns d1
            ∧ getElementById d1 id = Some el
            ∧ append parse_fragment id h2 d1 = Returns d2
            ∧ childNodes_at d2 el = Some (cs ++ [n1; n2]))
  ∧ (∃ d1 d2, prepend parse_fragment id h1 doc = Returns d1
              ∧ getElementById d1 id = Some el
              ∧ prepend parse_fragment id h2 d1 = Returns d2
              ∧ childNodes_at d2 el = Some (n2 :: n1 :: cs)).
Proof.
  intros Hel Hcs Hp1 Hp2. split.
  - pose proof (getElementById_update_children id (λ cs, cs ++ [n1]) el doc Hel)
      as Hel1.
    eexists. eexists. split_and!.
    + by eapply append_live.
    + exact Hel1.
    + by eapply append_live.
    + rewrite update_children_compose.
      rewrite (childNodes_at_update _ _ _ cs) by done. by rewrite <- app_assoc.
  - pose proof (getElementById_update_children id (λ cs, n1 :: cs) el doc Hel)
      as Hel1.
    eexists. eexists. split_and!.
    + by eapply prepend_live.
    + exact Hel1.
    + by eapply prepend_live.
    + rewrite update_children_compose.
      by rewrite (childNodes_at_update _ _ _ cs) by done.
Qed.

Lemma insertions_accumulate_witness :
  getElementById sample_page (js "a") = Some [0; 0; 0]%nat
  ∧ childNodes_at sample_page [0; 0; 0]%nat = Some [Text [0xE9]]
  ∧ sample_parse (html_name "div") (js "<p></p><b></b>")
    = [Element (html_name "p") [] []; Element (html_name "b") [] []]
  ∧ sample_parse (html_name "div") (js "<!--x--><i></i>")
    = [Comment (js "x"); Element (html_name "i") [] []]
  ∧ (∃ d1 d2,
       append sample_parse (js "a") (js "<p></p><b></b>") sample_page = Returns d1
       ∧ getElementById d1 (js "a") = Some [0; 0; 0]%nat
       ∧ append sample_parse (js "a") (js "<!--x--><i></i>") d1 = Returns d2
       ∧ childNodes_at d2 [0; 0; 0]%nat
         = Some ([Text [0xE9]] ++ [Element (html_name "p") [] []; Comment (js "x")]))
  ∧ (∃ d1 d2,
       prepend sample_parse (js "a") (js "<p></p><b></b>") sample_page = Returns d1
       ∧ getElementById d1 (js "a") = Some [0; 0; 0]%nat
       ∧ prepend sample_parse (js "a") (js "<!--x--><i></i>") d1 = Returns d2
       ∧ childNodes_at d2 [0; 0; 0]%nat
         = Some [Comment (js "x"); Element (html_name "p") [] []; Text [0xE9]]).
Proof.
  split; [reflexivity|]. split; [reflexivity|]. split; [reflexivity|].
  split; [reflexivity|].
  apply (insertions_accumulate sample_parse sample_page (js "a")
           (js "<p></p><b></b>") (js "<!--x--><i></i>") [0; 0; 0]%nat
           (Element (html_name "p") [] []) (Comment (js "x"))
           [Element (html_name "b") [] []] [Element (html_name "i") [] []] [Text [0xE9]]);
    reflexivity.
Defined.

(** X8.  [append] and [prepend] on one live target commute: whichever is
    called first, the document that results is the same, with the first
    node of the [prepend] HTML in front of the old children and the
    first node of the [append] HTML after them. *)
Theorem append_prepend_commute
    (parse_fragment : element_name → jsstring → list node)
    (doc : document) (id h1 h2 : jsstring) (el : path)
    (n1 n2 : node) (r1 r2 cs : list node) :
  getElementById doc id = Some el →
  childNodes_at doc el = Some cs →
  parse_fragment (html_name "div") h1 = n1 :: r1 →
  parse_fragment (html_name "div") h2 = n2 :: r2 →
  ∃ da dp d,
    append parse_fragment id h1 doc = Returns da
    ∧ prepend parse_fragment id h2 da = Returns d
    ∧ prepend parse_fragment id h2 doc = Returns dp
    ∧ append parse_fragment id h1 dp = Returns d
    ∧ childNodes_at d el = Some (n2 :: cs ++ [n1]).
Proof.
  intros Hel Hcs Hp1 Hp2.
  pose proof (getElementById_update_children id (λ cs, cs ++ [n1]) el doc Hel)
    as Hela.
  pose proof (getElementById_update_children id (λ cs, n2 :: cs) el doc Hel)
    as Help.
  eexists. eexists. eexists. split_and!.
  - by eapply append_live.
  - by eapply prepend_live.
  - by eapply prepend_live.
  - rewrite (append_live _ _ _ _ _ _ _ Help Hp1). f_equal.
    by rewrite !update_children_compose.
  - rewrite update_children_compose.
    by rewrite (childNodes_at_update _ _ _ cs) by done.
Qed.

Lemma append_prepend_commute_witness :
  getElementById sample_page (js "a") = Some [0; 0; 0]%nat
  ∧ childNodes_at sample_page [0; 0; 0]%nat = Some [Text [0xE9]]
  ∧ sample_parse (html_name "div") (js "<p></p><b></b>")
    = [Element (html_name "p") [] []; Element (html_name "b") [] []]
  ∧ sample_parse (html_name "div") (js "<!--x--><i></i>")
    = [Comment (js "x"); Element (html_name "i") [] []]
  ∧ ∃ da dp d,
      append sample_parse (js "a") (js "<p></p><b></b>") sample_page = Returns da
      ∧ prepend sample_parse (js "a") (js "<!--x--><i></i>") da = Returns d
      ∧ prepend sample_parse (js "a") (js "<!--x--><i></i>") sample_page = Returns dp
      ∧ append sample_parse (js "a") (js "<p></p><b></b>") dp = Returns d
      ∧ childNodes_at d [0; 0; 0]%nat
        = Some (Comment (js "x") :: [Text [0xE9]] ++ [Element (html_name "p") [] []]).
Proof.
  split; [reflexivity|]. split; [reflexivity|]. split; [reflexivity|].
  split; [reflexivity|].
  apply (append_prepend_commute sample_parse sample_page (js "a")
           (js "<p></p><b></b>") (js "<!--x--><i></i>") [0; 0; 0]%nat
           (Element (html_name "p") [] []) (Comment (js "x"))
           [Element (html_name "b") [] []] [Element (html_name "i") [] []] [Text [0xE9]]);
    reflexivity.
Defined.

(** ** The buffer of [get_inner_html], in general *)

Lemma utf8_bytes_length u :
  (1 ≤ length (utf8_bytes u) ≤ 4)%nat.
Proof. unfold utf8_bytes. repeat case_match; simpl; lia. Qed.

(** The loop never fills more than the room before [endIdx], and never
    more bytes than it has characters room for. *)
Lemma utf8_fill_length us outIdx endIdx :
  outIdx ≤ endIdx →
  Z.of_nat (length (utf8_fill us outIdx endIdx)) ≤ endIdx - outIdx.
Proof.
  revert outIdx. induction us as [|u us IH]; intros outIdx Hle; simpl; [lia|].
  pose proof (utf8_bytes_length u) as Hu.
  destruct (outIdx + (Z.of_nat (length (utf8_bytes u)) - 1) >=? endIdx) eqn:E;
    simpl; [lia|].
  rewrite Z.geb_leb in E. apply Z.leb_gt in E.
  rewrite length_app.
  specialize (IH (outIdx + Z.of_nat (length (utf8_bytes u)))). lia.
Qed.

Lemma utf8_fill_prefix us outIdx endIdx :
  utf8_fill us outIdx endIdx `prefix_of` flat_map utf8_bytes us.
Proof.
  revert outIdx. induction us as [|u us IH]; intros outIdx; simpl; [done|].
  destruct (outIdx + (Z.of_nat (length (utf8_bytes u)) - 1) >=? endIdx).
  - apply prefix_nil.
  - by apply prefix_app.
Qed.

(** Reading a stored string back stops at its first NUL, inside the
    bytes that were stored. *)
Lemma c_string_store_bytes_prefix bs p m n :
  (length bs < n)%nat →
  ∃ r, c_string (store_bytes p (bs ++ [0]) m) p n = Some r ∧ r `prefix_of` bs.
Proof.
  revert p m n. induction bs as [|b bs IH]; intros p m n Hn.
  - destruct n as [|n]; [simpl in Hn; lia|].
    exists []. split; [|done]. rewrite c_string_S. simpl.
    by rewrite lookup_insert_eq.
  - destruct n as [|n]; [simpl in Hn; lia|].
    cbn [app]. rewrite c_string_S, store_bytes_lookup_head.
    destruct (b =? 0); [exists []; split; [done|apply prefix_nil]|].
    cbn [store_bytes].
    destruct (IH (p + 1) (<[p:=b]> m) n) as (r & -> & Hr); [simpl in Hn; lia|].
    exists (b :: r). split; [done|]. by apply prefix_cons.
Qed.

Lemma stringToUTF8_other s outPtr maxBytes m a :
  a < outPtr ∨ outPtr + maxBytes ≤ a →
  stringToUTF8 s outPtr maxBytes m !! a = m !! a.
Proof.
  intros Ha. unfold stringToUTF8.
  destruct (maxBytes >? 0) eqn:E; [|done].
  rewrite Z.gtb_ltb in E. apply Z.ltb_lt in E.
  apply store_bytes_lookup_other.
  pose proof (utf8_fill_length (code_points s) outPtr (outPtr + maxBytes - 1)).
  rewrite length_app. simpl. lia.
Qed.

(** The string [get_inner_html] serialises. *)
Lemma get_inner_html_unfold id doc h s :
  s = match getElementById doc id with
      | Some el => from_option innerHTML [] (node_at doc el)
      | None => []
      end →
  get_inner_html id doc h
  = (brk h,
     Heap (stringToUTF8 s (brk h) (Z.of_nat (length s) + 1) (HEAPU8 h))
          ((brk h, Z.of_nat (length s) + 1) :: blocks h)
          (brk h + (Z.of_nat (length s) + 1))).
Proof.
  intros ->. unfold get_inner_html, malloc. cbn [HEAPU8 blocks brk].
  do 2 f_equal. lia.
Qed.

(** *** The runtime's bytes and UTF-8 *)

Lemma lor_high_low hi lo k :
  0 ≤ k → 0 ≤ lo < 2 ^ k → Z.lor (hi * 2 ^ k) lo = hi * 2 ^ k + lo.
Proof.
  intros Hk Hlo.
  assert (Z.land (hi * 2 ^ k) lo = 0) as Hland.
  { apply Z.bits_inj'. intros n Hn. rewrite Z.land_spec, Z.bits_0.
    destruct (Z.lt_ge_cases n k).
    - by rewrite Z.mul_pow2_bits_low by lia.
    - rewrite <- (Z.mod_small lo (2 ^ k)) by lia.
      rewrite Z.mod_pow2_bits_high by lia. apply andb_false_r. }
  pose proof (Z.add_lor_land (hi * 2 ^ k) lo). lia.
Qed.

Lemma land_low x k : 0 ≤ k → Z.land x (2 ^ k - 1) = x mod 2 ^ k.
Proof.
  intros Hk. rewrite <- Z.land_ones by lia. f_equal. rewrite Z.ones_equiv. lia.
Qed.

Lemma continuation_byte x : Z.lor 0x80 (Z.land x 63) = 0x80 + x mod 0x40.
Proof.
  change (Z.land x 63) with (Z.land x (2 ^ 6 - 1)).
  rewrite (land_low x 6) by lia.
  apply (lor_high_low 2 (x mod 2 ^ 6) 6); [lia|]. by apply Z.mod_pos_bound.
Qed.

Lemma leading_byte hi k u n :
  0 ≤ k → 0 ≤ n → 0 ≤ u < 2 ^ (n + k) →
  Z.lor (hi * 2 ^ k) (Z.shiftr u n) = hi * 2 ^ k + u / 2 ^ n.
Proof.
  intros Hk Hn Hu. rewrite Z.shiftr_div_pow2 by lia.
  apply lor_high_low; [lia|]. split.
  - apply Z.div_pos; lia.
  - apply Z.div_lt_upper_bound; [lia|]. rewrite <- Z.pow_add_r by lia. lia.
Qed.

Lemma utf8_bytes_scalar u :
  0 ≤ u < 0x110000 → utf8_bytes u = utf8_of_scalar u.
Proof.
  intros Hu. unfold utf8_bytes, utf8_of_scalar.
  rewrite !continuation_byte, !Z.shiftr_div_pow2 by lia.
  destruct (Z.leb_spec u 0x7F), (Z.ltb_spec u 0x80); try lia; [done|].
  destruct (Z.leb_spec u 0x7FF), (Z.ltb_spec u 0x800); try lia.
  { f_equal. rewrite <- Z.shiftr_div_pow2 by lia.
    apply (leading_byte 6 5 u 6); lia. }
  destruct (Z.leb_spec u 0xFFFF), (Z.ltb_spec u 0x10000); try lia.
  { f_equal. rewrite <- Z.shiftr_div_pow2 by lia.
    apply (leading_byte 14 4 u 12); lia. }
  f_equal. rewrite <- Z.shiftr_div_pow2 by lia.
  apply (leading_byte 30 3 u 18); lia.
Qed.

Lemma join_surrogates_pair c d :
  high_surrogate c = true → low_surrogate d = true →
  join_surrogates c d = 0x10000 + (c - 0xD800) * 0x400 + (d - 0xDC00)
  ∧ 0 ≤ join_surrogates c d < 0x110000.
Proof.
  unfold high_surrogate, low_surrogate, join_surrogates.
  intros [Hc1 Hc2]%andb_prop [Hd1 Hd2]%andb_prop.
  apply Z.leb_le in Hc1, Hc2, Hd1, Hd2.
  change 0x3FF with (2 ^ 10 - 1).
  rewrite (land_low c 10), (land_low d 10), Z.shiftl_mul_pow2 by lia.
  assert (c mod 2 ^ 10 = c - 0xD800) as ->.
  { symmetry. apply (Z.mod_unique c (2 ^ 10) 54); lia. }
  assert (d mod 2 ^ 10 = d - 0xDC00) as ->.
  { symmetry. apply (Z.mod_unique d (2 ^ 10) 55); lia. }
  replace (65536 + (c - 55296) * 2 ^ 10) with ((64 + (c - 55296)) * 2 ^ 10) by lia.
  rewrite lor_high_low by lia. lia.
Qed.

Lemma code_points_well_formed s us :
  code_units s → scalar_values s = Some us →
  code_points s = us ∧ Forall (λ u, 0 ≤ u < 0x110000) us.
Proof.
  remember (length s) as n eqn:Hn. revert s us Hn.
  induction n as [n IH] using lt_wf_ind. intros s us Hn Hs.
  destruct s as [|c tl]; [intros [= <-]; by split|].
  apply Forall_cons in Hs as [Hc Htl]. cbn [scalar_values code_points].
  destruct (high_surrogate c) eqn:Hhigh.
  - assert (is_surrogate c = true) as ->.
    { unfold high_surrogate, is_surrogate in *.
      apply andb_prop in Hhigh as [H1 H2]. apply Z.leb_le in H1, H2.
      apply andb_true_intro. split; apply Z.leb_le; lia. }
    destruct tl as [|d tl']; [done|].
    destruct (low_surrogate d) eqn:Hlow; [|done].
    apply Forall_cons in Htl as [Hd Htl'].
    destruct (scalar_values tl') as [us'|] eqn:Hus'; [|done].
    intros [= <-].
    destruct (IH (length tl') ltac:(simpl in Hn; lia) tl' us' eq_refl Htl' Hus')
      as [-> Hall].
    destruct (join_surrogates_pair c d Hhigh Hlow) as [<- Hrange].
    split; [done|]. by constructor.
  - destruct (low_surrogate c) eqn:Hlow; [done|].
    assert (is_surrogate c = false) as ->.
    { unfold high_surrogate, low_surrogate, is_surrogate in *.
      apply andb_false_iff in Hhigh, Hlow. apply andb_false_iff.
      rewrite !Z.leb_gt in *. lia. }
    destruct (scalar_values tl) as [us'|] eqn:Hus'; [|done].
    intros [= <-].
    destruct (IH (length tl) ltac:(simpl in Hn; lia) tl us' eq_refl Htl Hus')
      as [-> Hall].
    split; [done|]. constructor; [lia|done].
Qed.

(** On a well-formed string the runtime writes UTF-8. *)
Lemma utf8_encode_well_formed s bs :
  code_units s → utf8 s = Some bs → utf8_encode s = bs.
Proof.
  unfold utf8, utf8_encode. intros Hs.
  destruct (scalar_values s) as [us|] eqn:Hus; [|done]. intros [= <-].
  destruct (code_points_well_formed s us Hs Hus) as [-> Hall].
  clear -Hall. induction Hall as [|u us Hu _ IH]; [done|].
  simpl. by rewrite utf8_bytes_scalar, IH.
Qed.

(** X9.  For a live element [get_inner_html] takes exactly one block of
    [s.length + 1] bytes from the allocator, [s] being the inner HTML of
    the element, returns the address of that block, and writes to no
    address outside the block. *)
Theorem get_inner_html_writes_inside_block
    (id : jsstring) (doc : document) (h : heap) (el : path) (n : node) :
  getElementById doc id = Some el →
  node_at doc el = Some n →
  ∃ buf h',
    get_inner_html id doc h = (buf, h')
    ∧ malloc (Z.of_nat (length (innerHTML n)) + 1) h
      = (buf, Heap (HEAPU8 h) (blocks h') (brk h'))
    ∧ ∀ a, a < buf ∨ buf + (Z.of_nat (length (innerHTML n)) + 1) ≤ a →
           HEAPU8 h' !! a = HEAPU8 h !! a.
Proof.
  intros Hel Hn. unfold get_inner_html. rewrite Hel, Hn. cbn [from_option].
  destruct (malloc (Z.of_nat (length (innerHTML n)) + 1) h) as [buf h1] eqn:Hm.
  exists buf. eexists. split; [done|]. cbn [HEAPU8 blocks brk].
  assert (HEAPU8 h1 = HEAPU8 h) as Hsame by (by injection Hm as _ <-).
  split.
  - rewrite <- Hsame. by destruct h1.
  - intros a Ha. rewrite <- Hsame. by apply stringToUTF8_other.
Qed.

Lemma get_inner_html_writes_inside_block_witness :
  getElementById sample_page (js "root") = Some [0%nat]
  ∧ (innerHTML <$> node_at sample_page [0%nat])
    = Some (js "<body><div id=" ++ [0x22] ++ js "a" ++ [0x22] ++ [0x3E; 0xE9]
            ++ js "</div><p id=" ++ [0x22] ++ js "b" ++ [0x22] ++ js " class="
            ++ [0x22] ++ js "x" ++ [0x22] ++ js "></p></body>")
  ∧ ∃ buf h',
      get_inner_html (js "root") sample_page empty_heap = (buf, h')
      ∧ malloc 57 empty_heap
        = (buf, Heap (HEAPU8 empty_heap) (blocks h') (brk h'))
      ∧ ∀ a, a < buf ∨ buf + 57 ≤ a → HEAPU8 h' !! a = HEAPU8 empty_heap !! a.
Proof.
  split; [reflexivity|]. split; [reflexivity|].
  destruct (node_at sample_page [0%nat]) as [n|] eqn:Hn; [|discriminate].
  assert (Z.of_nat (length (innerHTML n)) + 1 = 57) as Hlen
    by (injection Hn as <-; reflexivity).
  destruct (get_inner_html_writes_inside_block (js "root") sample_page
              empty_heap [0%nat] n eq_refl Hn) as (buf & h' & Hget & Hm & Hout).
  rewrite Hlen in Hm, Hout. by exists buf, h'.
Defined.

(** X10.  The buffer [get_inner_html] returns for a live element whose
    inner HTML is a well-formed UTF-16 string always holds a
    NUL-terminated string inside its block; the string is a prefix of
    the UTF-8 encoding of the inner HTML and has no more bytes than the
    inner HTML has UTF-16 code units, so an inner HTML whose encoding is
    longer than that never comes back whole. *)
Theorem get_inner_html_returns_prefix
    (id : jsstring) (doc : document) (h : heap) (el : path) (n : node)
    (encoding : list Z) :
  getElementById doc id = Some el →
  node_at doc el = Some n →
  code_units (innerHTML n) →
  utf8 (innerHTML n) = Some encoding →
  ∃ bs,
    c_string (HEAPU8 (get_inner_html id doc h).2) (get_inner_html id doc h).1
             (S (length (innerHTML n))) = Some bs
    ∧ bs `prefix_of` encoding
    ∧ (length bs ≤ length (innerHTML n))%nat
    ∧ ((length (innerHTML n) < length encoding)%nat → bs ≠ encoding).
Proof.
  intros Hel Hn Hunits Henc.
  rewrite <- (utf8_encode_well_formed _ _ Hunits Henc).
  rewrite (get_inner_html_unfold id doc h (innerHTML n)) by by rewrite Hel, Hn.
  cbn [fst snd HEAPU8]. unfold stringToUTF8.
  rewrite Z.gtb_ltb, (proj2 (Z.ltb_lt _ _)) by lia.
  set (fill := utf8_fill (code_points (innerHTML n)) (brk h)
                 (brk h + (Z.of_nat (length (innerHTML n)) + 1) - 1)).
  assert (length fill ≤ length (innerHTML n))%nat as Hlen.
  { pose proof (utf8_fill_length (code_points (innerHTML n)) (brk h)
                  (brk h + (Z.of_nat (length (innerHTML n)) + 1) - 1)).
    fold fill in H. lia. }
  destruct (c_string_store_bytes_prefix fill (brk h) (HEAPU8 h)
              (S (length (innerHTML n)))) as (bs & Hbs & Hpre); [lia|].
  exists bs. split; [done|].
  assert (length bs ≤ length (innerHTML n))%nat as Hbound.
  { apply prefix_length in Hpre. lia. }
  split_and!; [|done|].
  - etrans; [exact Hpre|]. apply utf8_fill_prefix.
  - intros Hlong ->. lia.
Qed.

Lemma get_inner_html_returns_prefix_witness :
  getElementById sample_page (js "a") = Some [0; 0; 0]%nat
  ∧ node_at sample_page [0; 0; 0]%nat = Some sample_div
  ∧ code_units (innerHTML sample_div)
  ∧ utf8 (innerHTML sample_div) = Some [0xC3; 0xA9]
  ∧ ∃ bs,
      c_string (HEAPU8 (get_inner_html (js "a") sample_page empty_heap).2)
               (get_inner_html (js "a") sample_page empty_heap).1
               (S (length (innerHTML sample_div))) = Some bs
      ∧ bs `prefix_of` [0xC3; 0xA9]
      ∧ (length bs ≤ length (innerHTML sample_div))%nat
      ∧ ((length (innerHTML sample_div) < length [0xC3; 0xA9])%nat →
         bs ≠ [0xC3; 0xA9]).
Proof.
  assert (code_units (innerHTML sample_div)) as Hunits
    by (repeat constructor; discriminate).
  split; [reflexivity|]. split; [reflexivity|]. split; [exact Hunits|].
  split; [reflexivity|].
  apply (get_inner_html_returns_prefix (js "a") sample_page empty_heap
           [0; 0; 0]%nat sample_div [0xC3; 0xA9]).
  - reflexivity.
  - reflexivity.
  - exact Hunits.
  - reflexivity.
Defined.

(** X11.  For a live element whose inner HTML is made of ASCII characters
    other than NUL, the buffer [get_inner_html] returns holds the whole
    inner HTML, byte for code unit, followed by the terminator. *)
Theorem get_inner_html_ascii_complete
    (id : jsstring) (doc : document) (h : heap) (el : path) (n : node) :
  getElementById doc id = Some el →
  node_at doc el = Some n →
  Forall (λ c, 0 < c ≤ 0x7F) (innerHTML n) →
  c_string (HEAPU8 (get_inner_html id doc h).2) (get_inner_html id doc h).1
           (S (length (innerHTML n)))
  = Some (innerHTML n)
  ∧ utf8_encode (innerHTML n) = innerHTML n.
Proof.
  intros Hel Hn Hs. split.
  - rewrite (get_inner_html_ascii id doc h el n Hel Hn Hs).
    by rewrite utf8_encode_ascii.
  - by apply utf8_encode_ascii.
Qed.

Lemma get_inner_html_ascii_complete_witness :
  getElementById plain_page (js "c") = Some [0; 0]%nat
  ∧ node_at plain_page [0; 0]%nat
    = Some (Element (html_name "div") [(js "id", js "c")]
              [Text (js "hi"); Element (html_name "br") [] []])
  ∧ innerHTML (Element (html_name "div") [(js "id", js "c")]
                 [Text (js "hi"); Element (html_name "br") [] []]) = js "hi<br>"
  ∧ c_string (HEAPU8 (get_inner_html (js "c") plain_page empty_heap).2)
             (get_inner_html (js "c") plain_page empty_heap).1
             (S (length (js "hi<br>")))
    = Some (js "hi<br>").
Proof.
  split; [reflexivity|]. split; [reflexivity|]. split; [reflexivity|].
  apply (get_inner_html_ascii_complete (js "c") plain_page empty_heap [0; 0]%nat
           (Element (html_name "div") [(js "id", js "c")]
              [Text (js "hi"); Element (html_name "br") [] []])).
  - reflexivity.
  - reflexivity.
  - apply (bool_decide_unpack _). vm_compute. exact I.
Defined.

(** ** Pages reached by the listener externs *)

Lemma registry_inv_wf st : registry_inv st → registry_wf st.
Proof.
  intros (Hls & _ & _). unfold registry_wf.
  eapply Forall_impl; [exact Hls|]. simpl.
  intros l [(c & Hc & _) _]. by eapply lookup_lt_Some.
Qed.

Lemma fresh_page_inv : registry_inv fresh_page.
Proof.
  split_and!; [constructor|constructor|]. intros table k f [=].
Qed.

Lemma register_listener_inv type sel st :
  registry_inv st → registry_inv (register_listener type sel st).
Proof.
  intros Hinv. pose proof (registry_inv_wf _ Hinv) as Hwf.
  destruct Hinv as (Hls & Hnd & Htab).
  unfold registry_inv. rewrite listeners_register by done.
  cbn [functions bh_handlers register_listener]. split_and!.
  - rewrite Forall_app. split.
    + eapply Forall_impl; [exact Hls|]. simpl.
      intros l [(c & Hc & Ht) Hcap]. split; [|done].
      exists c. split; [|done]. by apply lookup_app_l_Some.
    + repeat constructor. simpl. exists (Closure type sel).
      split; [by apply list_lookup_middle|done].
  - rewrite fmap_app. apply NoDup_app. split_and!; [done| |].
    + intros f Hf [->|[]%elem_of_nil]%elem_of_cons.
      apply list_elem_of_fmap in Hf as (l & Hl & Hin).
      unfold registry_wf in Hwf. rewrite Forall_forall in Hwf.
      specialize (Hwf l Hin). simpl in Hl. lia.
    + simpl. apply NoDup_singleton.
  - intros table k f [= <-] Hk.
    rewrite lookup_insert in Hk. case_decide as Hkey.
    + injection Hk as <-. exists (Closure type sel).
      split; [by apply list_lookup_middle|done].
    + destruct (bh_handlers st) as [table0|] eqn:Ht0; simpl in Hk; [|done].
      destruct (Htab table0 k f eq_refl Hk) as (c & Hc & Hck).
      exists c. split; [|done]. by apply lookup_app_l_Some.
Qed.

Lemma remove_listener_elem type f ls l :
  l ∈ remove_listener type f ls → l ∈ ls.
Proof.
  induction ls as [|l0 ls IH]; simpl; [done|].
  destruct (same_listener type f l0).
  - intros H. by apply elem_of_cons; right.
  - intros [->|H]%elem_of_cons; [by left|right; by apply IH].
Qed.

Lemma remove_listener_NoDup type f ls :
  NoDup (l_callback <$> ls) → NoDup (l_callback <$> remove_listener type f ls).
Proof.
  induction ls as [|l0 ls IH]; simpl; [done|].
  rewrite NoDup_cons. intros [Hl0 Hnd].
  destruct (same_listener type f l0); [done|].
  simpl. apply NoDup_cons. split; [|by apply IH].
  intros (l & Hl & Hin)%list_elem_of_fmap. apply Hl0.
  apply list_elem_of_fmap. exists l. split; [done|].
  by eapply remove_listener_elem.
Qed.

Lemma unregister_listener_inv type sel st st' :
  registry_inv st →
  unregister_listener type sel st = Returns st' →
  registry_inv st'.
Proof.
  intros (Hls & Hnd & Htab). unfold unregister_listener.
  destruct (bh_handlers st) as [table|] eqn:Ht; [|done].
  intros [= <-]. unfold registry_inv. cbn [listeners functions bh_handlers].
  split_and!.
  - destruct (table !! handler_key type sel) as [f|]; [|done]. simpl.
    rewrite Forall_forall in Hls. apply Forall_forall.
    intros l Hl. apply Hls. by eapply remove_listener_elem.
  - destruct (table !! handler_key type sel) as [f|]; [|done].
    by apply remove_listener_NoDup.
  - intros table' k f [= <-] Hk. apply lookup_delete_Some in Hk as [_ Hk].
    by eapply Htab.
Qed.

Lemma after_call_inv c st : registry_inv st → registry_inv (after_call c st).
Proof.
  intros Hinv. destruct c as [type sel|type sel]; simpl.
  - by apply register_listener_inv.
  - destruct (unregister_listener type sel st) as [st'|] eqn:E; [|done].
    by eapply unregister_listener_inv.
Qed.

Lemma after_calls_inv cs st : registry_inv st → registry_inv (after_calls cs st).
Proof.
  revert st. induction cs as [|c cs IH]; intros st Hinv; [done|].
  apply IH. by apply after_call_inv.
Qed.

Lemma forwarded_from_typed_listener
    (matches : document → path → jsstring → option bool)
    (JSON_stringify : list (jsstring * jsstring) → jsstring) st doc e d :
  d ∈ forwarded matches JSON_stringify st doc e →
  ∃ l c, l ∈ listeners st ∧ l_type l = e_type e
         ∧ functions st !! l_callback l = Some c
         ∧ d_type d = cl_type c ∧ d_sel d = cl_sel c.
Proof.
  unfold forwarded, dispatch.
  intros (r & Hr & Hd)%list_elem_of_omap.
  apply list_elem_of_fmap in Hr as (l & -> & Hl).
  apply list_elem_of_filter in Hl as [Ht Hl].
  destruct (functions st !! l_callback l) as [c|] eqn:Hc; [|done].
  destruct (handler matches JSON_stringify c doc e) as [o|] eqn:Hh; [|done].
  simpl in Hd. subst o.
  apply handler_forwards_own_pair in Hh as (t & a & cs & _ & ->).
  by exists l, c.
Qed.

(** X12.  On every page the listener externs can reach from a fresh one,
    whatever is forwarded for an event carries the type of that event:
    no handler forwards under the type of another registration. *)
Theorem forwarded_type_is_event_type
    (matches : document → path → jsstring → option bool)
    (JSON_stringify : list (jsstring * jsstring) → jsstring)
    (calls : list listener_call) (doc : document) (e : event) (d : delegated) :
  d ∈ forwarded matches JSON_stringify (after_calls calls fresh_page) doc e →
  d_type d = e_type e.
Proof.
  intros Hd.
  destruct (after_calls_inv calls fresh_page fresh_page_inv) as (Hls & _ & _).
  apply forwarded_from_typed_listener in Hd as (l & c & Hl & Ht & Hc & Hd & _).
  rewrite Forall_forall in Hls.
  destruct (Hls l Hl) as [(c' & Hc' & Hct) _]. congruence.
Qed.

Lemma forwarded_type_is_event_type_witness :
  Delegated (js "click") (js "p")
    (sample_stringify [(js "id", js "b"); (js "class", js "x")])
  ∈ forwarded sample_matches sample_stringify
      (after_calls [RegisterCall (js "click") (js "p");
                    RegisterCall (js "input") (js "p")] fresh_page)
      sample_page (Event (js "click") [0; 0; 1]%nat)
  ∧ d_type (Delegated (js "click") (js "p")
              (sample_stringify [(js "id", js "b"); (js "class", js "x")]))
    = e_type (Event (js "click") [0; 0; 1]%nat).
Proof.
  assert (Delegated (js "click") (js "p")
            (sample_stringify [(js "id", js "b"); (js "class", js "x")])
          ∈ forwarded sample_matches sample_stringify
              (after_calls [RegisterCall (js "click") (js "p");
                            RegisterCall (js "input") (js "p")] fresh_page)
              sample_page (Event (js "click") [0; 0; 1]%nat)) as H.
  { vm_compute. apply list_elem_of_here. }
  split; [exact H|].
  exact (forwarded_type_is_event_type sample_matches sample_stringify _ _ _ _ H).
Defined.

Lemma filter_remove_listener_other (P : listener → Prop) `{∀ l, Decision (P l)}
    type f ls :
  (∀ l, l ∈ ls → same_listener type f l = true → ¬ P l) →
  filter P (remove_listener type f ls) = filter P ls.
Proof.
  induction ls as [|l0 ls IH]; intros Hother; simpl; [done|].
  destruct (same_listener type f l0) eqn:Hsame.
  - rewrite filter_cons_False; [done|].
    apply Hother; [by left|done].
  - rewrite !filter_cons, IH; [done|].
    intros l Hl. apply Hother. by right.
Qed.

(** X13.  On every page the listener externs can reach from a fresh one,
    [unregister_listener] leaves the listeners of every pair with a
    different table key attached. *)
Theorem unregister_keeps_other_keys
    (calls : list listener_call) (type sel t s : jsstring) (st' : registry) :
  handler_key t s ≠ handler_key type sel →
  unregister_listener type sel (after_calls calls fresh_page) = Returns st' →
  listeners_for t s st' = listeners_for t s (after_calls calls fresh_page).
Proof.
  intros Hkey.
  pose proof (after_calls_inv calls fresh_page fresh_page_inv) as (_ & _ & Htab).
  set (st := after_calls calls fresh_page) in *.
  unfold unregister_listener.
  destruct (bh_handlers st) as [table|] eqn:Ht; [|done].
  intros [= <-]. unfold listeners_for. cbn [listeners functions].
  destruct (table !! handler_key type sel) as [f|] eqn:Hf; [|done]. simpl.
  apply filter_remove_listener_other.
  intros l _ Hsame Hc.
  destruct (Htab table _ f eq_refl Hf) as (c & Hfc & Hck).
  unfold same_listener in Hsame.
  apply andb_prop in Hsame as [Hsame _]. apply andb_prop in Hsame as [_ Hcb].
  apply bool_decide_eq_true_1 in Hcb. rewrite Hcb in Hc.
  rewrite Hfc in Hc. injection Hc as ->. by apply Hkey.
Qed.

Lemma unregister_keeps_other_keys_witness :
  handler_key (js "click") (js "p") ≠ handler_key (js "click") (js ".btn")
  ∧ unregister_listener (js "click") (js ".btn")
      (after_calls [RegisterCall (js "click") (js "p");
                    RegisterCall (js "click") (js ".btn")] fresh_page)
    = Returns (Registry (Some {[handler_key (js "click") (js "p") := 0%nat]})
                        [Listener (js "click") 0 false true]
                        [Closure (js "click") (js "p");
                         Closure (js "click") (js ".btn")])
  ∧ listeners_for (js "click") (js "p")
      (Registry (Some {[handler_key (js "click") (js "p") := 0%nat]})
                [Listener (js "click") 0 false true]
                [Closure (js "click") (js "p"); Closure (js "click") (js ".btn")])
    = listeners_for (js "click") (js "p")
        (after_calls [RegisterCall (js "click") (js "p");
                      RegisterCall (js "click") (js ".btn")] fresh_page).
Proof.
  split; [discriminate|].
  assert (unregister_listener (js "click") (js ".btn")
            (after_calls [RegisterCall (js "click") (js "p");
                          RegisterCall (js "click") (js ".btn")] fresh_page)
          = Returns (Registry (Some {[handler_key (js "click") (js "p") := 0%nat]})
                              [Listener (js "click") 0 false true]
                              [Closure (js "click") (js "p");
                               Closure (js "click") (js ".btn")])) as H
    by (vm_compute; reflexivity).
  split; [exact H|].
  apply (unregister_keeps_other_keys
           [RegisterCall (js "click") (js "p"); RegisterCall (js "click") (js ".btn")]
           (js "click") (js ".btn") (js "click") (js "p")).
  - discriminate.
  - exact H.
Defined.

(** X14.  A second [unregister_listener] for the same pair changes
    nothing: once a call has returned, repeating it returns the very
    page it left. *)
Theorem unregister_twice_is_once
    (type sel : jsstring) (st st' : registry) :
  unregister_listener type sel st = Returns st' →
  unregister_listener type sel st' = Returns st'.
Proof.
  unfold unregister_listener.
  destruct (bh_handlers st) as [table|]; [|done].
  intros [= <-]. cbn [bh_handlers listeners functions].
  rewrite lookup_delete_eq. cbn [removeEventListener].
  by rewrite delete_delete_eq.
Qed.

Lemma unregister_twice_is_once_witness :
  ∃ st', unregister_listener (js "click") (js "p")
           (register_listener (js "click") (js "p") fresh_page) = Returns st'
         ∧ unregister_listener (js "click") (js "p") st' = Returns st'.
Proof.
  eexists. split; [reflexivity|].
  apply (unregister_twice_is_once (js "click") (js "p")
           (register_listener (js "click") (js "p") fresh_page)).
  reflexivity.
Defined.

Lemma register_times_wf n type sel st :
  registry_wf st → registry_wf (register_times n type sel st).
Proof.
  intros Hwf. induction n as [|n IH]; [done|].
  simpl. by apply register_listener_wf.
Qed.

Lemma listeners_for_register_times n type sel st :
  registry_wf st →
  length (listeners_for type sel (register_times n type sel st))
  = (length (listeners_for type sel st) + n)%nat.
Proof.
  intros Hwf. induction n as [|n IH]; [simpl; lia|].
  change (register_times (S n) type sel st)
    with (register_listener type sel (register_times n type sel st)).
  rewrite listeners_for_register by by apply register_times_wf.
  rewrite decide_True by done. rewrite length_app, IH. simpl. lia.
Qed.

(** X15.  [unregister_listener] takes off one registration only: after
    the same pair was registered [n + 1] times in a row,
    [unregister_listener] returns and leaves [n] more listeners of the
    pair attached than there were before the registrations, and any
    further [unregister_listener] for the pair leaves the page as it
    is. *)
Theorem unregister_removes_last_registration_only
    (n : nat) (type sel : jsstring) (st : registry) :
  registry_wf st →
  ∃ st', unregister_listener type sel (register_times (S n) type sel st)
         = Returns st'
    ∧ length (listeners_for type sel st')
      = (length (listeners_for type sel st) + n)%nat
    ∧ unregister_listener type sel st' = Returns st'.
Proof.
  intros Hwf.
  pose proof (register_times_wf n type sel st Hwf) as Hwfn.
  change (register_times (S n) type sel st)
    with (register_listener type sel (register_times n type sel st)).
  rewrite register_then_unregister by done.
  eexists. split; [reflexivity|]. split.
  - unfold listeners_for at 1. cbn [functions listeners].
    rewrite filter_closure_old by done.
    by apply listeners_for_register_times.
  - unfold unregister_listener. cbn [bh_handlers listeners functions].
    rewrite lookup_delete_eq. cbn [removeEventListener].
    by rewrite delete_delete_eq.
Qed.

Lemma unregister_removes_last_registration_only_witness :
  registry_wf fresh_page
  ∧ ∃ st', unregister_listener (js "click") (js "p")
             (register_times 3 (js "click") (js "p") fresh_page) = Returns st'
    ∧ length (listeners_for (js "click") (js "p") st')
      = (length (listeners_for (js "click") (js "p") fresh_page) + 2)%nat
    ∧ unregister_listener (js "click") (js "p") st' = Returns st'.
Proof.
  split; [constructor|].
  apply (unregister_removes_last_registration_only 2 (js "click") (js "p")
           fresh_page).
  constructor.
Defined.

Lemma after_call_table c st :
  is_Some (bh_handlers st) → is_Some (bh_handlers (after_call c st)).
Proof.
  intros [table Ht]. destruct c as [type sel|type sel]; simpl.
  - by eexists.
  - unfold unregister_listener. rewrite Ht. by eexists.
Qed.

Lemma after_calls_table cs st :
  is_Some (bh_handlers st) → is_Some (bh_handlers (after_calls cs st)).
Proof.
  revert st. induction cs as [|c cs IH]; intros st H; [done|].
  apply IH. by apply after_call_table.
Qed.

(** X16.  Once [register_listener] has run, [unregister_listener] never
    raises again: after any registration and any further calls of the two
    externs, unregistering any pair returns. *)
Theorem unregister_returns_after_first_register
    (calls : list listener_call) (type sel t s : jsstring) (st : registry) :
  ∃ st', unregister_listener t s
           (after_calls calls (register_listener type sel st)) = Returns st'.
Proof.
  destruct (after_calls_table calls (register_listener type sel st))
    as [table Ht]; [by eexists|].
  unfold unregister_listener. rewrite Ht. by eexists.
Qed.

(** ** The snapshot object and the targets of events *)

Lemma insert_index_Permutation n kv (o : list (jsstring * jsstring)) :
  insert_index n kv o ≡ₚ kv :: o.
Proof.
  induction o as [|kv' o IH]; [done|]. cbn [insert_index].
  destruct (array_index kv'.1) as [m|]; [destruct (m <? n)|]; try done.
  rewrite IH. apply Permutation_swap.
Qed.

Lemma create_property_Permutation k v (o : list (jsstring * jsstring)) :
  create_property k v o ≡ₚ (k, v) :: o.
Proof.
  unfold create_property. destruct (array_index k).
  - apply insert_index_Permutation.
  - symmetry. apply Permutation_cons_append.
Qed.

Lemma replace_value_keys k v (o : list (jsstring * jsstring)) :
  (replace_value k v o).*1 = o.*1.
Proof.
  induction o as [|[k1 v1] o IH]; [done|]. cbn [replace_value].
  destruct (decide (k1 = k)); [done|]. csimpl. by rewrite IH.
Qed.

Lemma assign_property_new k v (o : list (jsstring * jsstring)) :
  k ∉ o.*1 → assign_property k v o = create_property k v o.
Proof.
  intros Hk%getAttribute_None_not_in. unfold assign_property. by rewrite Hk.
Qed.

Lemma assign_property_keys k v (o : list (jsstring * jsstring)) :
  (assign_property k v o).*1 ≡ₚ if decide (k ∈ o.*1) then o.*1 else k :: o.*1.
Proof.
  destruct (decide (k ∈ o.*1)) as [Hin|Hnotin].
  - unfold assign_property. destruct (getAttribute k o) eqn:Hk.
    + by rewrite replace_value_keys.
    + by apply getAttribute_None_not_in in Hk.
  - rewrite assign_property_new by done.
    by rewrite create_property_Permutation.
Qed.

Lemma object_set_NoDup o kv : NoDup o.*1 → NoDup (object_set o kv).*1.
Proof.
  intros Hnd. unfold object_set.
  destruct (decide (kv.1 = js "__proto__")); [done|].
  rewrite assign_property_keys.
  destruct (decide (kv.1 ∈ o.*1)); [done|]. by apply NoDup_cons.
Qed.

Lemma foldl_object_set_NoDup attrs o :
  NoDup o.*1 → NoDup (foldl object_set o attrs).*1.
Proof.
  revert o. induction attrs as [|kv attrs IH]; intros o Hnd; [done|].
  simpl. by apply IH, object_set_NoDup.
Qed.

Lemma getAttribute_reverse_None k (a : list (jsstring * jsstring)) :
  getAttribute k (reverse a) = None ↔ getAttribute k a = None.
Proof.
  rewrite !getAttribute_None_not_in, fmap_reverse.
  by rewrite elem_of_reverse.
Qed.

(** X17.  The snapshot is a well-formed object: no key occurs twice in
    it, and its keys are exactly the attribute names of the target other
    than [__proto__]. *)
Theorem snapshot_keys (attrs : list (jsstring * jsstring)) :
  NoDup (snapshot attrs).*1
  ∧ ∀ k, k ∈ (snapshot attrs).*1 ↔ k ∈ attrs.*1 ∧ k ≠ js "__proto__".
Proof.
  split; [apply foldl_object_set_NoDup; constructor|].
  intros k. destruct (decide (k = js "__proto__")) as [->|Hk].
  - split; [|by intros [_ ?]].
    intros Hin. exfalso. revert Hin. apply getAttribute_None_not_in.
    apply snapshot_lookup_proto.
  - split.
    + intros Hin. split; [|done].
      destruct (decide (k ∈ attrs.*1)) as [|Hnotin]; [done|].
      exfalso. revert Hin. apply getAttribute_None_not_in.
      rewrite snapshot_lookup by done.
      apply (proj2 (getAttribute_reverse_None k attrs)).
      by apply (proj2 (getAttribute_None_not_in k attrs)).
    + intros [Hin _].
      destruct (decide (k ∈ (snapshot attrs).*1)) as [|Hnotin]; [done|].
      exfalso. apply getAttribute_None_not_in in Hnotin.
      rewrite snapshot_lookup in Hnotin by done.
      apply (proj1 (getAttribute_reverse_None k attrs)) in Hnotin.
      by apply (proj1 (getAttribute_None_not_in k attrs)) in Hnotin.
Qed.

Lemma insert_index_app n kv (ixs rest : list (jsstring * jsstring)) :
  Forall (λ kv, is_Some (array_index kv.1)) ixs →
  Forall (λ kv, array_index kv.1 = None) rest →
  insert_index n kv (ixs ++ rest) = insert_index n kv ixs ++ rest.
Proof.
  intros Hixs Hrest. induction Hixs as [|kv' ixs [m Hm] _ IH].
  - destruct Hrest as [|r rest Hr _]; [done|]. cbn [app insert_index].
    by rewrite Hr.
  - cbn [app insert_index]. rewrite Hm. destruct (m <? n); [|done].
    by rewrite IH.
Qed.

Lemma insert_index_sorted n k v (ixs : list (jsstring * jsstring)) :
  array_index k = Some n →
  Forall (λ kv, is_Some (array_index kv.1)) ixs →
  StronglySorted index_le ixs →
  StronglySorted index_le (insert_index n (k, v) ixs).
Proof.
  intros Hk Hixs Hsorted.
  assert (index_of (k, v) = n) as Hn by (unfold index_of; simpl; by rewrite Hk).
  induction Hsorted as [|kv' ixs Hsorted IH Hle].
  - repeat constructor.
  - apply Forall_cons in Hixs as [[m Hm] Hixs]. cbn [insert_index]. rewrite Hm.
    assert (index_of kv' = m) as Hm' by (unfold index_of; by rewrite Hm).
    destruct (m <? n) eqn:Hlt.
    + apply Z.ltb_lt in Hlt. constructor; [by apply IH|].
      rewrite insert_index_Permutation. constructor; [|done].
      unfold index_le. lia.
    + apply Z.ltb_ge in Hlt. constructor; [by constructor|].
      constructor; [unfold index_le; lia|].
      eapply Forall_impl; [exact Hle|]. unfold index_le. intros; lia.
Qed.

(** The loop started on an object that lists its keys in order keeps the
    order: new array indices go to their place among the indices, other
    new keys to the end. *)
Lemma foldl_object_set_order attrs (ixs rest : list (jsstring * jsstring)) :
  Forall (λ kv, is_Some (array_index kv.1)) ixs →
  Forall (λ kv, array_index kv.1 = None) rest →
  StronglySorted index_le ixs →
  NoDup (ixs ++ rest ++ attrs).*1 →
  js "__proto__" ∉ attrs.*1 →
  ∃ ixs', foldl object_set (ixs ++ rest) attrs
          = ixs' ++ rest ++ filter (λ kv, array_index kv.1 = None) attrs
          ∧ ixs' ≡ₚ ixs ++ filter (λ kv, is_Some (array_index kv.1)) attrs
          ∧ StronglySorted index_le ixs'.
Proof.
  revert ixs rest.
  induction attrs as [|[k v] attrs IH]; intros ixs rest Hixs Hrest Hsorted Hnd Hproto.
  - exists ixs. by rewrite !app_nil_r.
  - simpl in Hproto. rewrite not_elem_of_cons in Hproto.
    destruct Hproto as [Hk Hproto].
    assert (k ∉ (ixs ++ rest).*1) as Hfresh.
    { intros Hin. rewrite app_assoc, fmap_app in Hnd.
      apply NoDup_app in Hnd as (_ & Hdisj & _).
      apply (Hdisj k Hin). simpl. by left. }
    cbn [foldl]. unfold object_set at 2. cbn [fst snd].
    rewrite decide_False by congruence.
    rewrite assign_property_new by done. unfold create_property.
    destruct (array_index k) as [n|] eqn:Hidx.
    + rewrite insert_index_app by done.
      destruct (IH (insert_index n (k, v) ixs) rest) as (ixs' & Heq & Hperm & Hs').
      * rewrite insert_index_Permutation. constructor; [simpl; by rewrite Hidx|done].
      * done.
      * by apply insert_index_sorted.
      * rewrite insert_index_Permutation.
        revert Hnd. apply NoDup_Permutation_proper.
        rewrite !fmap_app. csimpl.
        rewrite <- !Permutation_middle. done.
      * done.
      * exists ixs'. split_and!; [| |done].
        -- rewrite Heq. rewrite (filter_cons_False _ (k, v)); [done|].
           simpl. by rewrite Hidx.
        -- rewrite Hperm, insert_index_Permutation.
           rewrite (filter_cons_True _ (k, v)) by (simpl; by rewrite Hidx).
           by rewrite <- Permutation_middle.
    + rewrite <- app_assoc.
      destruct (IH ixs (rest ++ [(k, v)])) as (ixs' & Heq & Hperm & Hs').
      * done.
      * apply Forall_app. split; [done|]. by constructor.
      * done.
      * revert Hnd. rewrite <- !app_assoc. done.
      * done.
      * exists ixs'. split_and!; [| |done].
        -- rewrite Heq. rewrite (filter_cons_True _ (k, v)) by done.
           by rewrite <- !app_assoc.
        -- rewrite Hperm. rewrite (filter_cons_False _ (k, v)); [done|].
           simpl. rewrite Hidx. by intros [? ?].
Qed.

(** X18.  The order of the snapshot, for a target whose attribute names
    are distinct and do not include [__proto__]: the attributes whose
    names are array indices come first, in ascending order of the index,
    and the other attributes follow in document order, every attribute
    with its value.  When no name is an array index the snapshot is the
    attribute list itself. *)
Theorem snapshot_key_order (attrs : list (jsstring * jsstring)) :
  NoDup attrs.*1 →
  js "__proto__" ∉ attrs.*1 →
  (∃ ixs, snapshot attrs
          = ixs ++ filter (λ kv, array_index kv.1 = None) attrs
          ∧ ixs ≡ₚ filter (λ kv, is_Some (array_index kv.1)) attrs
          ∧ StronglySorted index_le ixs)
  ∧ (Forall (λ kv, array_index kv.1 = None) attrs → snapshot attrs = attrs).
Proof.
  intros Hnd Hproto.
  destruct (foldl_object_set_order attrs [] [])
    as (ixs & Heq & Hperm & Hsorted); [done|done|constructor|done|done|].
  split; [by exists ixs|].
  intros Hplain. unfold snapshot. cbn [app] in Heq, Hperm. rewrite Heq.
  assert (filter (λ kv, is_Some (array_index kv.1)) attrs = []) as Hnone.
  { clear -Hplain. induction Hplain as [|kv attrs Hkv _ IH]; [done|].
    rewrite filter_cons_False; [done|]. rewrite Hkv. by intros [? ?]. }
  rewrite Hnone in Hperm. apply Permutation_nil_r in Hperm as ->.
  clear -Hplain. induction Hplain as [|kv attrs Hkv _ IH]; [done|].
  rewrite filter_cons_True by done. simpl in *. by rewrite IH.
Qed.

Lemma snapshot_key_order_witness :
  NoDup [(js "b", js "1"); (js "2", js "x"); (js "1", js "y")].*1
  ∧ (js "__proto__" ∉ [(js "b", js "1"); (js "2", js "x"); (js "1", js "y")].*1)
  ∧ (∃ ixs, snapshot [(js "b", js "1"); (js "2", js "x"); (js "1", js "y")]
            = ixs ++ [(js "b", js "1")]
            ∧ ixs ≡ₚ [(js "2", js "x"); (js "1", js "y")]
            ∧ StronglySorted index_le ixs)
  ∧ snapshot [(js "b", js "1"); (js "2", js "x"); (js "1", js "y")]
    = [(js "1", js "y"); (js "2", js "x"); (js "b", js "1")].
Proof.
  assert (NoDup [(js "b", js "1"); (js "2", js "x"); (js "1", js "y")].*1) as Hnd
    by (apply (bool_decide_unpack _); vm_compute; exact I).
  assert (js "__proto__" ∉ [(js "b", js "1"); (js "2", js "x"); (js "1", js "y")].*1)
    as Hp by (apply (bool_decide_unpack _); vm_compute; exact I).
  split; [exact Hnd|]. split; [exact Hp|].
  split; [|reflexivity].
  exact (proj1 (snapshot_key_order _ Hnd Hp)).
Defined.

Lemma omap_all_None {A B} (f : A → option B) (l : list A) :
  Forall (λ x, f x = None) l → omap f l = [].
Proof. induction 1 as [|x l Hx _ IH]; simpl; [done|]. by rewrite Hx. Qed.

(** X19.  An event whose target is not an element (the document itself,
    a text node) is never forwarded: a handler with a selector returns
    early, a handler with the empty selector raises [TypeError] on the
    missing attribute list, and nothing reaches [delegate_event],
    whatever is registered. *)
Theorem non_element_target_not_forwarded
    (matches : document → path → jsstring → option bool)
    (JSON_stringify : list (jsstring * jsstring) → jsstring)
    (st : registry) (doc : document) (e : event) :
  (∀ t a cs, node_at doc (e_target e) ≠ Some (Element t a cs)) →
  (∀ c, handler matches JSON_stringify c doc e
        = match cl_sel c with
          | [] => Throws TypeError
          | _ :: _ => Returns None
          end)
  ∧ forwarded matches JSON_stringify st doc e = [].
Proof.
  intros Htarget.
  assert (∀ c, handler matches JSON_stringify c doc e
               = match cl_sel c with
                 | [] => Throws TypeError
                 | _ :: _ => Returns None
                 end) as Hh.
  { intros c. unfold handler, forward.
    destruct (node_at doc (e_target e)) as [[t a cs| |]|] eqn:Hn;
      try by destruct (cl_sel c).
    by destruct (Htarget t a cs). }
  split; [exact Hh|].
  unfold forwarded, dispatch. apply omap_all_None.
  apply Forall_fmap, Forall_forall. intros l _. simpl.
  destruct (functions st !! l_callback l) as [c|]; [|done].
  rewrite Hh. by destruct (cl_sel c).
Qed.

Lemma non_element_target_not_forwarded_witness :
  (∀ t a cs, node_at sample_page (e_target (Event (js "click") []))
             ≠ Some (Element t a cs))
  ∧ (∀ c, handler sample_matches sample_stringify c sample_page
            (Event (js "click") [])
          = match cl_sel c with
            | [] => Throws TypeError
            | _ :: _ => Returns None
            end)
  ∧ forwarded sample_matches sample_stringify
      (register_listener (js "click") [] fresh_page) sample_page
      (Event (js "click") []) = [].
Proof.
  split; [discriminate|].
  apply (non_element_target_not_forwarded sample_matches sample_stringify
           (register_listener (js "click") [] fresh_page) sample_page
           (Event (js "click") [])).
  discriminate.
Defined.

(** ** The revision without the null checks *)

(** X20.  The two revisions differ exactly on missing targets: when an
    element of the document carries the identifier, each of the six
    externs of the earlier revision gives the result the checked extern
    gives; when none does, the earlier revision raises [TypeError] and
    the checked one returns the document as it is. *)
Theorem revisions_differ_on_missing_targets_only
    (parse_fragment : element_name → jsstring → list node)
    (doc : document) (id html : jsstring) :
  (live_element doc id →
   Unguarded.set_outer_html parse_fragment id html doc
   = set_outer_html parse_fragment id html doc
   ∧ Unguarded.set_inner_html parse_fragment id html doc
     = set_inner_html parse_fragment id html doc
   ∧ Unguarded.append parse_fragment id html doc = append parse_fragment id html doc
   ∧ Unguarded.prepend parse_fragment id html doc = prepend parse_fragment id html doc
   ∧ Unguarded.before parse_fragment id html doc = before parse_fragment id html doc
   ∧ Unguarded.after parse_fragment id html doc = after parse_fragment id html doc)
  ∧ (¬ live_element doc id →
     (Unguarded.set_outer_html parse_fragment id html doc = Throws TypeError
      ∧ Unguarded.set_inner_html parse_fragment id html doc = Throws TypeError
      ∧ Unguarded.append parse_fragment id html doc = Throws TypeError
      ∧ Unguarded.prepend parse_fragment id html doc = Throws TypeError
      ∧ Unguarded.before parse_fragment id html doc = Throws TypeError
      ∧ Unguarded.after parse_fragment id html doc = Throws TypeError)
     ∧ (set_outer_html parse_fragment id html doc = Returns doc
        ∧ set_inner_html parse_fragment id html doc = Returns doc
        ∧ append parse_fragment id html doc = Returns doc
        ∧ prepend parse_fragment id html doc = Returns doc
        ∧ before parse_fragment id html doc = Returns doc
        ∧ after parse_fragment id html doc = Returns doc)).
Proof.
  unfold Unguarded.set_outer_html, Unguarded.set_inner_html, Unguarded.append,
    Unguarded.prepend, Unguarded.before, Unguarded.after,
    set_outer_html, set_inner_html, append, prepend, before, after.
  split.
  - intros [el Hel]%getElementById_live. by rewrite Hel.
  - intros Hnone%getElementById_None. by rewrite Hnone.
Qed.

(** ** Registering next to earlier registrations *)

Lemma dispatch_old_listeners
    (matches : document → path → jsstring → option bool)
    (JSON_stringify : list (jsstring * jsstring) → jsstring)
    (fs : list closure) c' (ls : list listener) doc e :
  Forall (λ l, (l_callback l < length fs)%nat) ls →
  (λ l, match (fs ++ [c']) !! l_callback l with
        | Some c => handler matches JSON_stringify c doc e
        | None => Throws TypeError
        end) <$> ls
  = (λ l, match fs !! l_callback l with
          | Some c => handler matches JSON_stringify c doc e
          | None => Throws TypeError
          end) <$> ls.
Proof.
  induction 1 as [|l ls Hl _ IH]; [done|].
  csimpl. by rewrite IH, lookup_app_l.
Qed.

(** X21.  Registering does not disturb earlier registrations: on a page
    whose listeners all run allocated functions, what is forwarded for
    an event after [register_listener(t, s)] is what was forwarded
    before, in the same order, followed by what the new handler forwards
    when the event has type [t]. *)
Theorem register_appends_to_forwarded
    (matches : document → path → jsstring → option bool)
    (JSON_stringify : list (jsstring * jsstring) → jsstring)
    (type sel : jsstring) (st : registry) (doc : document) (e : event) :
  registry_wf st →
  forwarded matches JSON_stringify (register_listener type sel st) doc e
  = forwarded matches JSON_stringify st doc e
    ++ (if decide (type = e_type e)
        then option_list
               (delivered (handler matches JSON_stringify (Closure type sel) doc e))
        else []).
Proof.
  intros Hwf. unfold forwarded, dispatch.
  rewrite listeners_register by done.
  cbn [functions register_listener].
  rewrite filter_app, fmap_app, omap_app. f_equal.
  - f_equal. apply dispatch_old_listeners.
    unfold registry_wf in Hwf. rewrite Forall_forall in Hwf.
    apply Forall_forall. intros l Hl. apply list_elem_of_filter in Hl as [_ Hl].
    by apply Hwf.
  - rewrite filter_cons, filter_nil. cbn [l_type].
    destruct (decide (type = e_type e)) as [Ht|Ht]; [|done].
    csimpl. rewrite list_lookup_middle by done.
    by destruct (delivered _).
Qed.

Lemma register_appends_to_forwarded_witness :
  registry_wf (register_listener (js "click") [] fresh_page)
  ∧ forwarded sample_matches sample_stringify
      (register_listener (js "click") (js "p")
         (register_listener (js "click") [] fresh_page))
      sample_page (Event (js "click") [0; 0; 1]%nat)
    = forwarded sample_matches sample_stringify
        (register_listener (js "click") [] fresh_page)
        sample_page (Event (js "click") [0; 0; 1]%nat)
      ++ (if decide (js "click" = e_type (Event (js "click") [0; 0; 1]%nat))
          then option_list
                 (delivered (handler sample_matches sample_stringify
                               (Closure (js "click") (js "p")) sample_page
                               (Event (js "click") [0; 0; 1]%nat)))
          else []).
Proof.
  assert (registry_wf (register_listener (js "click") [] fresh_page)) as Hwf
    by (repeat constructor).
  split; [exact Hwf|].
  exact (register_appends_to_forwarded sample_matches sample_stringify
           (js "click") (js "p") _ sample_page
           (Event (js "click") [0; 0; 1]%nat) Hwf).
Defined.

(** ** The identifier after [before] and [after] *)

Lemma search_reaches id q ns r sib :
  first_hit (find_id id) ns 0 = Some (q ++ r) → r ≠ [] →
  childNodes_at ns q = Some sib →
  first_hit (find_id id) sib 0 = Some r.
Proof.
  revert ns. induction q as [|j q IH]; intros ns H Hr Hsib.
  - simpl in *. by simplify_eq.
  - apply first_hit_elim in H as (k & c & p & [= -> <-] & Hk & Hc & _).
    simpl in Hsib. rewrite Hk in Hsib.
    destruct c as [t a cs| |]; [|done|done].
    simpl in Hc. destruct (has_id id a).
    + injection Hc as Hc. by destruct q, r.
    + by apply (IH cs).
Qed.

Lemma search_through id q ns r sib' r' :
  first_hit (find_id id) ns 0 = Some (q ++ r) → r ≠ [] →
  first_hit (find_id id) sib' 0 = Some r' →
  first_hit (find_id id) (update_children (λ _, sib') q ns) 0 = Some (q ++ r').
Proof.
  revert ns. induction q as [|j q IH]; intros ns H Hr Hsib'; [done|].
  apply first_hit_elim in H as (k & c & p & [= -> <-] & Hk & Hc & Hbefore).
  destruct (find_id_Some_element _ _ _ Hc) as (t & a & cs & ->).
  cbn [update_children]. cbn [Nat.add]. rewrite Hk.
  apply (first_hit_intro _ _ 0%nat k
           (Element t a (update_children (λ _, sib') q cs)) (q ++ r')).
  - apply list_lookup_insert_eq. by eapply lookup_lt_Some.
  - simpl in *. destruct (has_id id a).
    + injection Hc as Hc. by destruct q, r.
    + by apply IH.
  - intros k' c' Hlt Hc'. rewrite list_lookup_insert_ne in Hc' by lia.
    by eapply Hbefore.
Qed.

Lemma search_after_sibling_update id f q ns r sib r' :
  first_hit (find_id id) ns 0 = Some (q ++ r) → r ≠ [] →
  childNodes_at ns q = Some sib →
  first_hit (find_id id) (f sib) 0 = Some r' →
  first_hit (find_id id) (update_children f q ns) 0 = Some (q ++ r').
Proof.
  intros H Hr Hsib Hf.
  rewrite (update_children_ext f (λ _, f sib) q ns sib) by done.
  by eapply search_through.
Qed.

Lemma first_hit_single_elim {A} (f : A → option (list nat)) ns i :
  first_hit f ns 0 = Some [i] →
  ∃ c, ns !! i = Some c ∧ f c = Some []
       ∧ ∀ k' c', (k' < i)%nat → ns !! k' = Some c' → f c' = None.
Proof.
  intros H. apply first_hit_elim in H as (k & c & p & [= -> ->] & Hk & Hc & Hb).
  by exists c.
Qed.

Lemma lookup_insert_at_before (n : node) i k (sib : list node) :
  (i ≤ length sib)%nat →
  (take i sib ++ n :: drop i sib) !! k
  = if decide (k < i)%nat then sib !! k
    else if decide (k = i) then Some n else sib !! (k - 1)%nat.
Proof.
  intros Hi. destruct (decide (k < i)%nat) as [Hlt|Hge].
  - rewrite lookup_app_l by (rewrite length_take; lia).
    by apply lookup_take_lt.
  - rewrite lookup_app_r by (rewrite length_take; lia).
    rewrite length_take, Nat.min_l by lia.
    destruct (decide (k = i)) as [->|Hne].
    + by rewrite Nat.sub_diag.
    + destruct (k - i)%nat as [|m] eqn:E; [lia|]. simpl.
      rewrite lookup_drop. f_equal. lia.
Qed.

(** X22.  The identifier after a sibling insertion: [after] leaves the
    identifier on the target, at the place it had; [before] moves the
    target one place down and keeps the identifier on it when the
    inserted node holds no element with that ID, and hands the identifier
    to the first such element of the inserted node when it holds one. *)
Theorem sibling_insertion_and_identifier
    (parse_fragment : element_name → jsstring → list node)
    (doc : document) (id html : jsstring) (el : path) (n : node) (rest : list node) :
  getElementById doc id = Some el →
  parse_fragment (html_name "div") html = n :: rest →
  parentNode el ≠ [] ∨ is_comment n = true →
  (∃ d, after parse_fragment id html doc = Returns d
        ∧ getElementById d id = Some el)
  ∧ (∃ d, before parse_fragment id html doc = Returns d
          ∧ getElementById d id
            = Some (parentNode el
                    ++ match find_id id n with
                       | None => [S (sibling_index el)]
                       | Some p => sibling_index el :: p
                       end)).
Proof.
  intros Hel Hp Hok.
  pose proof (getElementById_nonempty _ _ _ Hel) as Hne.
  destruct (getElementById_Some _ _ _ Hel) as (t & a & cs & Hn & _).
  destruct (node_at_siblings doc el _ Hne Hn) as (sib & Hsib & Hi).
  assert (document_accepts doc n = true ∨ parentNode el ≠ []) as Hacc.
  { destruct Hok as [?|Hc]; [by right|left; by apply comment_accepted]. }
  assert (first_hit (find_id id) doc 0
          = Some (parentNode el ++ [sibling_index el])) as Hsearch
    by (rewrite <- path_split by done; exact Hel).
  pose proof (search_reaches id _ doc [sibling_index el] sib Hsearch
                ltac:(done) Hsib) as Hlocal.
  apply first_hit_single_elim in Hlocal as (c & Hc & Hfound & Hearlier).
  pose proof (lookup_lt_Some _ _ _ Hc) as Hlen.
  split.
  - unfold after. rewrite Hel, (cont_firstChild_cons _ _ _ _ Hp), Hsib.
    rewrite insertBefore_Returns by (destruct Hacc; [by right|by left]).
    eexists. split; [reflexivity|].
    replace (Some el) with (Some (parentNode el ++ [sibling_index el]))
      by (by rewrite <- path_split).
    unfold getElementById.
    eapply search_after_sibling_update; [exact Hsearch|done|exact Hsib|].
    cbn [default].
    apply (first_hit_intro _ _ 0%nat (sibling_index el) c []); [|done|].
    + unfold nextSibling_ref, insert_at. case_decide.
      * rewrite lookup_insert_at_before by lia. by rewrite decide_True by lia.
      * by apply lookup_app_l_Some.
    + intros k' c' Hlt Hk'. apply (Hearlier k' c' Hlt).
      revert Hk'. unfold nextSibling_ref, insert_at. case_decide.
      * rewrite lookup_insert_at_before by lia. by rewrite decide_True by lia.
      * by rewrite lookup_app_l by lia.
  - unfold before. rewrite Hel, (cont_firstChild_cons _ _ _ _ Hp).
    rewrite insertBefore_Returns by (destruct Hacc; [by right|by left]).
    eexists. split; [reflexivity|].
    unfold getElementById.
    eapply search_after_sibling_update; [exact Hsearch|done|exact Hsib|].
    cbn [insert_at].
    destruct (find_id id n) as [p|] eqn:Hfn.
    + apply (first_hit_intro _ _ 0%nat (sibling_index el) n p); [|done|].
      * rewrite lookup_insert_at_before by lia.
        rewrite decide_False by lia. by rewrite decide_True.
      * intros k' c' Hlt Hk'. apply (Hearlier k' c' Hlt).
        rewrite lookup_insert_at_before in Hk' by lia.
        by rewrite decide_True in Hk' by lia.
    + apply (first_hit_intro _ _ 0%nat (S (sibling_index el)) c []); [|done|].
      * rewrite lookup_insert_at_before by lia.
        rewrite !decide_False by lia. by rewrite Nat.sub_1_r.
      * intros k' c' Hlt Hk'.
        rewrite lookup_insert_at_before in Hk' by lia.
        destruct (decide (k' < sibling_index el)%nat).
        -- by apply (Hearlier k' c').
        -- rewrite decide_True in Hk' by lia. by simplify_eq.
Qed.

Lemma sibling_insertion_and_identifier_witness :
  getElementById sample_page (js "b") = Some [0; 0; 1]%nat
  ∧ sample_parse (html_name "div") (js "<p></p><b></b>")
    = [Element (html_name "p") [] []; Element (html_name "b") [] []]
  ∧ parentNode [0; 0; 1]%nat ≠ []
  ∧ (∃ d, after sample_parse (js "b") (js "<p></p><b></b>") sample_page = Returns d
          ∧ getElementById d (js "b") = Some [0; 0; 1]%nat)
  ∧ (∃ d, before sample_parse (js "b") (js "<p></p><b></b>") sample_page = Returns d
          ∧ getElementById d (js "b")
            = Some (parentNode [0; 0; 1]%nat
                    ++ match find_id (js "b") (Element (html_name "p") [] []) with
                       | None => [S (sibling_index [0; 0; 1]%nat)]
                       | Some p => sibling_index [0; 0; 1]%nat :: p
                       end)).
Proof.
  split; [reflexivity|]. split; [reflexivity|]. split; [discriminate|].
  apply (sibling_insertion_and_identifier sample_parse sample_page (js "b")
           (js "<p></p><b></b>") [0; 0; 1]%nat (Element (html_name "p") [] [])
           [Element (html_name "b") [] []]).
  - reflexivity.
  - reflexivity.
  - left. discriminate.
Defined.

(** ** Setting the [id] attribute *)

(** X23.  [set_attr] does not protect the [id] attribute: when the name
    the call uses on the target is [id] (the key [id] in any letter case
    on a target in the HTML namespace, the key [id] itself on a target
    in the SVG or MathML namespace) and the value is non-empty and not
    the identifier, the call returns, the target then carries the new
    value as its ID and no longer the old one, and the old identifier no
    longer names the target. *)
Theorem set_attr_can_rename_target
    (valid_attribute_name : jsstring → bool)
    (doc : document) (id key val : jsstring) (el : path)
    (t : element_name) (a : list (jsstring * jsstring)) (cs : list node) :
  getElementById doc id = Some el →
  node_at doc el = Some (Element t a cs) →
  valid_attribute_name key = true →
  (namespaceURI t = HTML ∧ ascii_lowercase key = js "id"
   ∨ namespaceURI t ≠ HTML ∧ key = js "id") →
  val ≠ [] → val ≠ id →
  ∃ d a',
    set_attr valid_attribute_name id key val doc = Returns d
    ∧ node_at d el = Some (Element t a' cs)
    ∧ has_id val a' = true
    ∧ has_id id a' = false
    ∧ getElementById d id ≠ Some el.
Proof.
  intros Hel Hn Hvalid Hkey Hval Hne.
  assert (attribute_name t key = js "id") as Hname.
  { unfold attribute_name. destruct Hkey as [[-> Hk]|[Hns Hk]]; [done|].
    by destruct (namespaceURI t). }
  rewrite (set_attr_live _ _ _ _ _ el t a cs Hel Hn Hvalid), Hname.
  pose proof (node_at_update_attributes (set_attribute_value (js "id") val)
                el doc t a cs Hn) as Hn'.
  assert (getAttribute (js "id") (set_attribute_value (js "id") val a) = Some val)
    as Hget by (rewrite getAttribute_set_attribute_value; by rewrite decide_True).
  assert (has_id id (set_attribute_value (js "id") val a) = false) as Hold.
  { unfold has_id. rewrite Hget.
    rewrite (bool_decide_eq_false_2 (Some val = Some id)) by congruence.
    apply andb_false_r. }
  eexists. eexists. split_and!; [done|exact Hn'| |exact Hold|].
  - unfold has_id. rewrite Hget. by rewrite !bool_decide_eq_true_2.
  - intros Hstill. apply getElementById_Some in Hstill as (t' & a' & cs' & Hn'' & Hid).
    rewrite Hn' in Hn''. injection Hn'' as <- <- <-. congruence.
Qed.

Lemma set_attr_can_rename_target_witness :
  getElementById sample_page (js "b") = Some [0; 0; 1]%nat
  ∧ node_at sample_page [0; 0; 1]%nat
    = Some (Element (html_name "p") [(js "id", js "b"); (js "class", js "x")] [])
  ∧ sample_valid_name (js "ID") = true
  ∧ (namespaceURI (html_name "p") = HTML ∧ ascii_lowercase (js "ID") = js "id"
     ∨ namespaceURI (html_name "p") ≠ HTML ∧ js "ID" = js "id")
  ∧ js "c" ≠ [] ∧ js "c" ≠ js "b"
  ∧ ∃ d a',
      set_attr sample_valid_name (js "b") (js "ID") (js "c") sample_page = Returns d
      ∧ node_at d [0; 0; 1]%nat = Some (Element (html_name "p") a' [])
      ∧ has_id (js "c") a' = true
      ∧ has_id (js "b") a' = false
      ∧ getElementById d (js "b") ≠ Some [0; 0; 1]%nat.
Proof.
  split; [reflexivity|]. split; [reflexivity|]. split; [reflexivity|].
  split; [left; split; reflexivity|].
  split; [discriminate|]. split; [discriminate|].
  apply (set_attr_can_rename_target sample_valid_name sample_page (js "b")
           (js "ID") (js "c") [0; 0; 1]%nat
           (html_name "p") [(js "id", js "b"); (js "class", js "x")] []).
  - reflexivity.
  - reflexivity.
  - reflexivity.
  - left. split; reflexivity.
  - discriminate.
  - discriminate.
Defined.
